(** * neomt3: event codec, vocabulary builder and run-length shift encoding

    A shallow embedding of [neomt3/event_codec.py], [neomt3/vocabularies.py]
    and [neomt3/run_length_encoding.py], with the properties the
    specification states about them.

    Modelling conventions.
    - Python [int] is [Z]. A [tf.Tensor] / numpy array of int32 tokens is a
      [list Z] whose elements lie in the int32 range; an element read from it
      is a numpy int32 scalar, and arithmetic between such a scalar and a
      Python [int] follows NumPy 2: the Python operand must fit int32
      ([OverflowError] otherwise) and the result wraps around in 32 bits.
      Comparisons between the two are exact.
    - A Python [dict] with string keys is a [gmap string _]; a sequence of
      event type names is a [list string].
    - A raised exception is the [Raise] case of [result]; functions that
      receive the codec object run in the state-and-exception monad
      [codec_op], whose state is that object, so that "does not mutate the
      codec" is a statement about the final state. *)

From Stdlib Require Import ZArith String List Lia Bool.
From stdpp Require Import base gmap list strings pretty.

Local Open Scope string_scope.
Local Open Scope list_scope.
Local Open Scope Z_scope.

(** ** Exceptions and results *)

Inductive exn : Type :=
  | ValueError (msg : string)
  | KeyError (key : string)
  | AttributeError (attr : string)
  | OverflowError (msg : string).

Inductive result (A : Type) : Type :=
  | Ok (a : A)
  | Raise (e : exn).
Arguments Ok {A} a.
Arguments Raise {A} e.

Definition result_bind {A B : Type} (r : result A) (k : A → result B) : result B :=
  match r with
  | Ok a => k a
  | Raise e => Raise e
  end.

#[global] Instance result_ret : MRet result := λ A a, Ok a.
#[global] Instance result_mbind : MBind result := λ A B k r, result_bind r k.

(** ** NumPy int32 scalars *)

Definition int32_min : Z := -2147483648.
Definition int32_max : Z := 2147483647.

Definition is_int32 (z : Z) : Prop := int32_min ≤ z ≤ int32_max.
Definition in_int32 (z : Z) : bool := (int32_min <=? z) && (z <=? int32_max).

(** The value of [z] stored in 32 bits, two's complement. *)
Definition wrap32 (z : Z) : Z := (z + 2147483648) mod 4294967296 - 2147483648.

Definition OutOfBounds (z : Z) : exn :=
  OverflowError ("Python integer " +:+ pretty z +:+ " out of bounds for int32").

(** [a + b] and [a - b] where [a] is a numpy int32 scalar and [b] a Python
    [int]: [b] is converted to int32 first, the result is an int32 scalar. *)
Definition np_add (a b : Z) : result Z :=
  if in_int32 b then Ok (wrap32 (a + b)) else Raise (OutOfBounds b).
Definition np_sub (a b : Z) : result Z :=
  if in_int32 b then Ok (wrap32 (a - b)) else Raise (OutOfBounds b).

(** [tf.convert_to_tensor(values, dtype=tf.int32)] on a list of Python
    [int]s: each value is stored in 32 bits. *)
Definition to_int32_tensor (values : list Z) : list Z := map wrap32 values.

(** ** [event_codec.py] *)

Module event_codec.

(** [@dataclass class Event: type: str; value: int] *)
Record Event : Type := mkEvent { type : string; value : Z }.

(** [@dataclass class EventRange: min_value: int; max_value: int] *)
Record EventRange : Type := mkEventRange { min_value : Z; max_value : Z }.

(** [EventRange.__init__] as the dataclass generates it: the two fields are
    stored and [__post_init__] validates them. *)
Definition InvalidRange (min_value max_value : Z) : exn :=
  ValueError ("min_value (" +:+ pretty min_value +:+
              ") must be less than or equal to max_value (" +:+
              pretty max_value +:+ ")").

Definition EventRange_init (min_value max_value : Z) : result EventRange :=
  if min_value >? max_value then Raise (InvalidRange min_value max_value)
  else Ok (mkEventRange min_value max_value).

(** The attributes [Codec.__init__] sets on [self]. *)
Record Codec : Type := mkCodec {
  event_types : list string;
  event_ranges : gmap string (Z * Z);
  pad_token : Z;
  sos_token : Z;
  eos_token : Z;
  num_special_tokens : Z;
  token_ranges : gmap string (Z * Z);
  num_classes : Z
}.

(** The loop of [Codec.__init__] over [event_types]; [event_ranges[event_type]]
    raises [KeyError] on a missing key. *)
Fixpoint init_loop (ranges : gmap string (Z * Z)) (types : list string)
    (token_ranges : gmap string (Z * Z)) (current_offset : Z)
  : result (gmap string (Z * Z) * Z) :=
  match types with
  | [] => Ok (token_ranges, current_offset)
  | event_type :: rest =>
      match ranges !! event_type with
      | None => Raise (KeyError event_type)
      | Some (min_val, max_val) =>
          let num_values := max_val - min_val + 1 in
          init_loop ranges rest (<[event_type := (min_val, max_val)]> token_ranges)
                    (current_offset + num_values)
      end
  end.

(** [Codec.__init__(self, event_types, event_ranges)] *)
Definition Codec_init (event_types : list string)
    (event_ranges : gmap string (Z * Z)) : result Codec :=
  let pad_token := 0 in
  let sos_token := 1 in
  let eos_token := 2 in
  let num_special_tokens := 3 in
  result_bind (init_loop event_ranges event_types ∅ 0) (λ '(token_ranges, current_offset),
    Ok (mkCodec event_types event_ranges pad_token sos_token eos_token
                num_special_tokens token_ranges
                (current_offset + num_special_tokens))).

(** Operations that receive the codec object: the state is the object, the
    result is a value or a raised exception (which leaves the state as it
    is at the raise). *)
Definition codec_op (A : Type) : Type := Codec → result A * Codec.

#[export] Instance codec_op_ret : MRet codec_op := λ A a self, (Ok a, self).
#[export] Instance codec_op_bind : MBind codec_op := λ A B k m self,
  match m self with
  | (Ok a, self') => k a self'
  | (Raise e, self') => (Raise e, self')
  end.

Definition raise {A : Type} (e : exn) : codec_op A := λ self, (Raise e, self).
(** Reading an attribute of [self]. *)
Definition attr {A : Type} (field : Codec → A) : codec_op A := λ self, (Ok (field self), self).
(** A computation that touches no state. *)
Definition lift {A : Type} (r : result A) : codec_op A := λ self, (r, self).

Definition UnknownEventType (name : string) : exn :=
  ValueError ("Unknown event type: " +:+ name).

(** The [for] loop of [encode_event], left by [break] at the event's type. *)
Fixpoint encode_loop (ranges : gmap string (Z * Z)) (ty : string)
    (types : list string) (offset : Z) : result Z :=
  match types with
  | [] => Ok offset
  | event_type :: rest =>
      if bool_decide (event_type = ty) then Ok offset
      else match ranges !! event_type with
           | None => Raise (KeyError event_type)
           | Some (min_val, max_val) =>
               encode_loop ranges ty rest (offset + (max_val - min_val + 1))
           end
  end.

(** [Codec.encode_event(self, event)] *)
Definition encode_event (event : Event) : codec_op Z :=
  types ← attr event_types;
  if negb (bool_decide (type event ∈ types)) then
    raise (UnknownEventType (type event))
  else
    offset0 ← attr num_special_tokens;
    ranges ← attr event_ranges;
    offset ← lift (encode_loop ranges (type event) types offset0);
    mret (offset + value event).

(** The [for] loop of [decode_event], left by [return] at the first type
    whose span covers the token. *)
Fixpoint decode_loop (ranges : gmap string (Z * Z)) (token : Z)
    (types : list string) (current_token : Z) : result (option Event) :=
  match types with
  | [] => Ok None
  | event_type :: rest =>
      match ranges !! event_type with
      | None => Raise (KeyError event_type)
      | Some (min_val, max_val) =>
          let num_values := max_val - min_val + 1 in
          if token <? current_token + num_values then
            Ok (Some (mkEvent event_type (token - current_token + min_val)))
          else decode_loop ranges token rest (current_token + num_values)
      end
  end.

(** [Codec.decode_event(self, token)] *)
Definition decode_event (token : Z) : codec_op (option Event) :=
  nspecial ← attr num_special_tokens;
  if token <? nspecial then mret None
  else
    types ← attr event_types;
    ranges ← attr event_ranges;
    lift (decode_loop ranges token types nspecial).

(** [Codec.decode_event] as it runs when [token] is a numpy int32 scalar
    (an element of [tokens.numpy()]): the comparisons are exact, and
    [token - current_token + min_val] is int32 scalar arithmetic, so the value
    of the event is an int32 scalar. *)
Fixpoint decode_loop_np (ranges : gmap string (Z * Z)) (token : Z)
    (types : list string) (current_token : Z) : result (option Event) :=
  match types with
  | [] => Ok None
  | event_type :: rest =>
      match ranges !! event_type with
      | None => Raise (KeyError event_type)
      | Some (min_val, max_val) =>
          let num_values := max_val - min_val + 1 in
          if token <? current_token + num_values then
            offset ← np_sub token current_token;
            value ← np_add offset min_val;
            Ok (Some (mkEvent event_type value))
          else decode_loop_np ranges token rest (current_token + num_values)
      end
  end.

Definition decode_event_np (token : Z) : codec_op (option Event) :=
  nspecial ← attr num_special_tokens;
  if token <? nspecial then mret None
  else
    types ← attr event_types;
    ranges ← attr event_ranges;
    lift (decode_loop_np ranges token types nspecial).

(** [Codec.event_type_range(self, event_type)] *)
Definition event_type_range (event_type : string) : codec_op (Z * Z) :=
  types ← attr event_types;
  if negb (bool_decide (event_type ∈ types)) then
    raise (UnknownEventType event_type)
  else
    ranges ← attr event_ranges;
    match ranges !! event_type with
    | None => raise (KeyError event_type)
    | Some r => mret r
    end.

(** Attribute access by name, [codec.<name>]: the instance dictionary holds
    exactly what [__init__] stored, the class contributes its methods, and any
    other name raises [AttributeError]. (The attributes every Python object
    inherits from [object], such as [__class__], are left out: no code of the
    repository reads them from a codec.) *)
Inductive pyval : Type :=
  | PInt (z : Z)
  | PStrs (l : list string)
  | PRanges (m : gmap string (Z * Z))
  | PMethod (name : string).

Definition instance_dict (self : Codec) : list (string * pyval) :=
  [ ("event_types", PStrs (event_types self));
    ("event_ranges", PRanges (event_ranges self));
    ("pad_token", PInt (pad_token self));
    ("sos_token", PInt (sos_token self));
    ("eos_token", PInt (eos_token self));
    ("num_special_tokens", PInt (num_special_tokens self));
    ("token_ranges", PRanges (token_ranges self));
    ("num_classes", PInt (num_classes self)) ].

Definition class_methods : list string :=
  [ "__init__"; "encode_event"; "decode_event"; "event_type_range" ].

Fixpoint assoc (name : string) (d : list (string * pyval)) : option pyval :=
  match d with
  | [] => None
  | (k, v) :: d' => if bool_decide (k = name) then Some v else assoc name d'
  end.

Definition NoAttribute (name : string) : exn :=
  AttributeError ("'Codec' object has no attribute '" +:+ name +:+ "'").

Definition getattr (name : string) : codec_op pyval := λ self,
  match assoc name (instance_dict self) with
  | Some v => (Ok v, self)
  | None =>
      if bool_decide (name ∈ class_methods) then (Ok (PMethod name), self)
      else (Raise (NoAttribute name), self)
  end.

End event_codec.

Import event_codec.

(** ** [vocabularies.py] *)

Module vocabularies.

(** [class VocabularyConfig] *)
Record VocabularyConfig : Type := mkVocabularyConfig {
  num_velocity_bins : Z;
  onsets_only : bool;
  include_ties : bool
}.

(** [VocabularyConfig()] with the default arguments. *)
Definition default_config : VocabularyConfig := mkVocabularyConfig 32 false true.

(** [build_codec(vocab_config)] *)
Definition build_codec (vocab_config : VocabularyConfig) : result Codec :=
  let event_types := ["note"] in
  let event_types :=
    if negb (onsets_only vocab_config) then event_types ++ ["velocity"; "program"]
    else event_types in
  let event_types :=
    if include_ties vocab_config then event_types ++ ["tie"] else event_types in
  let event_ranges : gmap string (Z * Z) :=
    list_to_map [ ("note", (0, 127));
                  ("velocity", (0, num_velocity_bins vocab_config - 1));
                  ("program", (0, 127));
                  ("tie", (0, 0)) ] in
  Codec_init event_types event_ranges.

(** [vocabulary_from_codec(codec)]: the dict display evaluates its values
    from left to right. *)
Definition vocabulary_from_codec : codec_op (list (string * pyval)) :=
  vocab_size ← getattr "num_classes";
  eos_id ← getattr "eos_id";
  pad_id ← getattr "pad_id";
  unk_id ← getattr "unk_id";
  mret [ ("vocab_size", vocab_size); ("eos_id", eos_id);
         ("pad_id", pad_id); ("unk_id", unk_id) ].

End vocabularies.

(** ** [run_length_encoding.py] *)

Module run_length_encoding.

(** [shift_start <= t <= shift_end] *)
Definition in_shift_range (shift_start shift_end t : Z) : bool :=
  (shift_start <=? t) && (t <=? shift_end).

(** The inner [while] of [run_length_encode_shifts]:
    [while i + count < len(tokens) and shift_start <= tokens[i + count] <= shift_end:
       count += 1].
    [tokens !! k] is [Some] exactly when [k < len(tokens)]. Every iteration
    increases [count], so [len(tokens)] iterations always reach the exit. *)
Fixpoint shift_count_loop (fuel : nat) (tokens : list Z)
    (shift_start shift_end : Z) (i count : nat) : nat :=
  match fuel with
  | O => count
  | S fuel' =>
      match tokens !! (i + count)%nat with
      | Some t =>
          if in_shift_range shift_start shift_end t
          then shift_count_loop fuel' tokens shift_start shift_end i (count + 1)
          else count
      | None => count
      end
  end.

(** The outer [while i < len(tokens)] of [run_length_encode_shifts]; [encoded]
    is the list being appended to. Every iteration increases [i], so
    [len(tokens)] iterations always reach the exit. [tokens[i]] is an int32
    scalar and [count] a Python [int], so [tokens[i] + count - 1] is two int32
    scalar operations. The final [tf.convert_to_tensor(encoded, dtype=tf.int32)]
    receives int32 scalars and keeps their values. *)
Fixpoint shift_encode_loop (fuel : nat) (tokens : list Z)
    (shift_start shift_end : Z) (i : nat) (encoded : list Z) : result (list Z) :=
  match fuel with
  | O => Ok encoded
  | S fuel' =>
      match tokens !! i with
      | None => Ok encoded
      | Some t =>
          if in_shift_range shift_start shift_end t then
            let count :=
              shift_count_loop (length tokens) tokens shift_start shift_end i 1 in
            sum ← np_add t (Z.of_nat count);
            token ← np_sub sum 1;
            shift_encode_loop fuel' tokens shift_start shift_end (i + count)
                              (encoded ++ [token])
          else
            shift_encode_loop fuel' tokens shift_start shift_end (i + 1)
                              (encoded ++ [t])
      end
  end.

(** [run_length_encode_shifts(tokens, codec)] *)
Definition run_length_encode_shifts (tokens : list Z) : codec_op (list Z) :=
  '(shift_start, shift_end) ← event_type_range "shift";
  lift (shift_encode_loop (length tokens) tokens shift_start shift_end 0 []).

(** The [for token in tokens] loop of [run_length_decode_shifts]; [token] is an
    int32 scalar and [shift_start] a Python [int], so [count] is an int32
    scalar; [[shift_start] * count] is the empty list for [count <= 0]. The
    final [tf.convert_to_tensor(decoded, dtype=tf.int32)] receives int32
    scalars and, where a shift token was expanded, a [shift_start] that fits
    int32, and keeps their values. *)
Fixpoint shift_decode_loop (shift_start shift_end : Z) (tokens : list Z)
    (decoded : list Z) : result (list Z) :=
  match tokens with
  | [] => Ok decoded
  | token :: rest =>
      if in_shift_range shift_start shift_end token then
        offset ← np_sub token shift_start;
        count ← np_add offset 1;
        shift_decode_loop shift_start shift_end rest
                          (decoded ++ replicate (Z.to_nat count) shift_start)
      else
        shift_decode_loop shift_start shift_end rest (decoded ++ [token])
  end.

(** [run_length_decode_shifts(tokens, codec)] *)
Definition run_length_decode_shifts (tokens : list Z) : codec_op (list Z) :=
  '(shift_start, shift_end) ← event_type_range "shift";
  lift (shift_decode_loop shift_start shift_end tokens []).

(** The [for event in events] loop of [encode_events]; [tokens] is the list
    being appended to. The elements are handed to [codec.encode_event], which
    reads their [type] and [value]: they are [Event] objects. *)
Fixpoint encode_events_loop (events : list Event) (tokens : list Z)
  : codec_op (list Z) :=
  match events with
  | [] => mret tokens
  | event :: rest =>
      token ← encode_event event;
      encode_events_loop rest (tokens ++ [token])
  end.

(** [encode_events(events, codec)]: the tokens are Python [int]s until the
    final [tf.convert_to_tensor(tokens, dtype=tf.int32)]. *)
Definition encode_events (events : list Event) : codec_op (list Z) :=
  tokens ← encode_events_loop events [];
  mret (to_int32_tensor tokens).

(** [tokens[:sequence_length]]: a negative bound counts from the end. *)
Definition slice_to (sequence_length : Z) (tokens : list Z) : list Z :=
  if 0 <=? sequence_length then take (Z.to_nat sequence_length) tokens
  else take (Z.to_nat (Z.of_nat (length tokens) + sequence_length)) tokens.

(** The [for token in tokens] loop of [decode_events]; [events] is the list
    being appended to, and a token that decodes to [None] adds nothing. The
    tokens are the int32 scalars of [tokens.numpy()]. *)
Fixpoint decode_events_loop (tokens : list Z) (events : list Event)
  : codec_op (list Event) :=
  match tokens with
  | [] => mret events
  | token :: rest =>
      event ← decode_event_np token;
      match event with
      | Some ev => decode_events_loop rest (events ++ [ev])
      | None => decode_events_loop rest events
      end
  end.

(** [decode_events(tokens, codec, vocab_config, frame_times=None,
    sequence_length=None)]; [vocab_config] and [frame_times] are accepted and
    never read. *)
Definition decode_events {T : Type} (tokens : list Z)
    (vocab_config : vocabularies.VocabularyConfig) (frame_times : option T)
    (sequence_length : option Z) : codec_op (list Event) :=
  let tokens :=
    match sequence_length with
    | Some n => slice_to n tokens
    | None => tokens
    end in
  decode_events_loop tokens [].

End run_length_encoding.

Import vocabularies run_length_encoding.

(** ** Codecs used by the repository's tests *)

(** The codec of [tests/test_event_codec.py]. *)
Definition note_velocity_ranges : gmap string (Z * Z) :=
  list_to_map [ ("note", (0, 127)); ("velocity", (0, 31)) ].

(** The module-level codec of [run_length_encoding_test.py]
    ([note_seq]'s MIDI pitch and program bounds are 0 and 127). *)
Definition rle_test_types : list string :=
  [ "pitch"; "velocity"; "drum"; "program"; "tie" ].
Definition rle_test_ranges : gmap string (Z * Z) :=
  list_to_map [ ("pitch", (0, 127)); ("velocity", (0, 127)); ("drum", (0, 127));
                ("program", (0, 127)); ("tie", (0, 0)) ].

(** What a construction returned, for use where it is known to succeed. *)
Definition built (r : result Codec) : Codec :=
  match r with
  | Ok c => c
  | Raise _ => mkCodec [] ∅ 0 0 0 0 ∅ 0
  end.

Definition rle_test_codec : Codec := built (Codec_init rle_test_types rle_test_ranges).


(** The codecs of [tests/test_event_codec.py]. *)
Definition note_velocity_codec : Codec :=
  built (Codec_init ["note"; "velocity"] note_velocity_ranges).
Definition note_velocity_program_ranges : gmap string (Z * Z) :=
  list_to_map [ ("note", (0, 127)); ("velocity", (0, 31)); ("program", (0, 127)) ].
Definition note_velocity_program_codec : Codec :=
  built (Codec_init ["note"; "velocity"; "program"] note_velocity_program_ranges).

(** A codec whose only registered type is [shift], with the given range. *)
Definition shift_only_codec (shift_start shift_end : Z) : Codec :=
  built (Codec_init ["shift"] {[ "shift" := (shift_start, shift_end) ]}).

(** A codec with a range that does not start at zero: the 88 keys of a piano
    as MIDI pitches 21..108, followed by the tie marker. *)
Definition piano_codec : Codec :=
  built (Codec_init ["pitch"; "tie"]
           (list_to_map [ ("pitch", (21, 108)); ("tie", (0, 0)) ])).

(** ** Operations the tests call that [run_length_encoding.py] does not define *)

Module spec_model.

(** Modelled from the spec: the redundant state-change remover
    ([remove_redundant_state_changes_fn], called by
    [run_length_encoding_test.py], is not defined in
    [run_length_encoding.py]). Section 4.4: "track last-seen value per
    state-change type; on encountering a token of a tracked type, if it equals
    the currently-active value for that type, drop it; otherwise emit it and
    update the active value"; each token is classified "by event type using the
    Codec's range lookup", that is [Codec.decode_event]. Section 4.4 also lets
    the boundary marker (token 2) reset the tracked state while sections 8 and
    9 leave that open; [reset_at_boundary] selects the policy. *)
Fixpoint remove_loop (reset_at_boundary : bool) (tracked : list string)
    (active : gmap string Z) (tokens : list Z) : codec_op (list Z) :=
  match tokens with
  | [] => mret []
  | token :: rest =>
      event ← decode_event token;
      match event with
      | Some ev =>
          if bool_decide (type ev ∈ tracked) then
            if bool_decide (active !! type ev = Some (value ev)) then
              remove_loop reset_at_boundary tracked active rest
            else
              out ← remove_loop reset_at_boundary tracked
                                (<[type ev := value ev]> active) rest;
              mret (token :: out)
          else
            out ← remove_loop reset_at_boundary tracked active rest;
            mret (token :: out)
      | None =>
          eos ← attr eos_token;
          let active' :=
            if reset_at_boundary && bool_decide (token = eos) then ∅ else active in
          out ← remove_loop reset_at_boundary tracked active' rest;
          mret (token :: out)
      end
  end.

(** Modelled from the spec: the remover of section 4.4 started with no
    active value for any type. *)
Definition remove_redundant_state_changes (reset_at_boundary : bool)
    (state_change_event_types : list string) (tokens : list Z)
  : codec_op (list Z) :=
  remove_loop reset_at_boundary state_change_event_types ∅ tokens.

(** Modelled from the spec: the "implicit absolute time cursor per stream"
    of section 4.5. The non-shift tokens of a decoded stream with the time at
    which each occurs: every shift token of the decoded stream advances the
    cursor by one step. *)
Fixpoint timed_events (shift_start shift_end : Z) (cursor : Z) (tokens : list Z)
  : list (Z * Z) :=
  match tokens with
  | [] => []
  | token :: rest =>
      if in_shift_range shift_start shift_end token
      then timed_events shift_start shift_end (cursor + 1) rest
      else (cursor, token) :: timed_events shift_start shift_end cursor rest
  end.

(** Modelled from the spec: the merge of section 4.5, by ascending time; at
    equal time the left stream goes first. *)
Fixpoint merge_timed (left : list (Z * Z)) : list (Z * Z) → list (Z * Z) :=
  fix merge_right (right : list (Z * Z)) : list (Z * Z) :=
    match left, right with
    | [], _ => right
    | _, [] => left
    | (tl, xl) :: left', (tr, xr) :: right' =>
        if tl <=? tr then (tl, xl) :: merge_timed left' right
        else (tr, xr) :: merge_right right'
    end.

(** Modelled from the spec: the merged, time-ordered events of section 4.5
    as a stream of single-step shift tokens and events, ready to be
    run-length encoded. *)
Fixpoint timed_to_stream (shift_start : Z) (cursor : Z) (events : list (Z * Z))
  : list Z :=
  match events with
  | [] => []
  | (time, token) :: rest =>
      replicate (Z.to_nat (time - cursor)) shift_start
        ++ token :: timed_to_stream shift_start time rest
  end.

(** Modelled from the spec: the run-length target merger
    ([merge_run_length_encoded_targets], called by
    [run_length_encoding_test.py], is not defined in
    [run_length_encoding.py]). Section 4.5: "decode both input sequences' shift
    run-lengths into an implicit absolute time cursor per stream; merge
    non-shift tokens by ascending absolute time (stable tie-break: preserve the
    input order - left-sequence tokens before right-sequence tokens at equal
    time); re-run-length-encode the merged, time-ordered stream as a single
    output". Decoding and re-encoding are [run_length_decode_shifts] and
    [run_length_encode_shifts] of [run_length_encoding.py]. *)
Definition merge_run_length_encoded_targets (left right : list Z)
  : codec_op (list Z) :=
  decoded_left ← run_length_decode_shifts left;
  decoded_right ← run_length_decode_shifts right;
  '(shift_start, shift_end) ← event_type_range "shift";
  let merged :=
    merge_timed (timed_events shift_start shift_end 0 decoded_left)
                (timed_events shift_start shift_end 0 decoded_right) in
  run_length_encode_shifts (timed_to_stream shift_start 0 merged).

End spec_model.

Import spec_model.

(** ** Notions used to state the properties *)

(** [codec.decode_event(codec.encode_event(event))] *)
Definition encode_then_decode (event : Event) : codec_op (option Event) :=
  token ← encode_event event;
  decode_event token.

(** Number of values of a type's range, [max_val - min_val + 1]. *)
Definition range_size (ranges : gmap string (Z * Z)) (t : string) : Z :=
  match ranges !! t with
  | Some (min_val, max_val) => max_val - min_val + 1
  | None => 0
  end.

(** Sum of the range sizes over a list of types, one summand per
    occurrence. *)
Fixpoint total_size (ranges : gmap string (Z * Z)) (types : list string) : Z :=
  match types with
  | [] => 0
  | t :: rest => range_size ranges t + total_size ranges rest
  end.

(** An event the codec is meant for: a registered type with a value within
    the type's range. *)
Definition valid_event (c : Codec) (e : Event) : Prop :=
  type e ∈ event_types c ∧
  ∃ mn mx, event_ranges c !! type e = Some (mn, mx) ∧ mn ≤ value e ≤ mx.

(** Every listed type has a range of non-negative size whose bounds fit
    int32. *)
Definition ranges_within_int32 (ranges : gmap string (Z * Z)) (types : list string)
  : Prop :=
  Forall (λ t, ∃ mn mx, ranges !! t = Some (mn, mx) ∧ mn ≤ mx + 1 ∧
                        is_int32 mn ∧ is_int32 mx) types.

(** What [decode_event] returns for a token ([None] also where it raises,
    which it never does on a constructed codec). *)
Definition decoded (c : Codec) (token : Z) : option Event :=
  match fst (decode_event token c) with
  | Ok r => r
  | Raise _ => None
  end.

(** No two neighbours of the sequence both lie in the shift range. *)
Fixpoint no_adjacent_shifts (shift_start shift_end : Z) (l : list Z) : Prop :=
  match l with
  | [] => True
  | t :: rest =>
      (in_shift_range shift_start shift_end t = true →
       ∀ u, head rest = Some u → in_shift_range shift_start shift_end u = false) ∧
      no_adjacent_shifts shift_start shift_end rest
  end.

Section shift_runs.

Variables shift_start shift_end : Z.

(** Number of leading tokens that lie in the shift range. *)
Fixpoint run_len (l : list Z) : nat :=
  match l with
  | [] => O
  | t :: rest => if in_shift_range shift_start shift_end t then S (run_len rest) else O
  end.

(** The token the encoder emits for a run of [count] tokens that starts
    with [t]: [t + count - 1] in int32 scalar arithmetic. *)
Definition run_token (t : Z) (count : nat) : Z :=
  wrap32 (wrap32 (t + Z.of_nat count) - 1).

(** The encoder read on the remaining suffix [tokens[i:]]: a token outside
    the shift range is copied, a token inside it absorbs the whole run that
    follows it. [fuel] bounds the number of output tokens. *)
Fixpoint rle_list (fuel : nat) (l : list Z) : list Z :=
  match fuel with
  | O => []
  | S fuel' =>
      match l with
      | [] => []
      | t :: rest =>
          if in_shift_range shift_start shift_end t then
            let n := run_len rest in
            run_token t (S n) :: rle_list fuel' (drop n rest)
          else t :: rle_list fuel' rest
      end
  end.

Definition rle (l : list Z) : list Z := rle_list (length l) l.

(** The count the decoder computes for a shift token:
    [token - shift_start + 1] in int32 scalar arithmetic. *)
Definition shift_count (token : Z) : Z := wrap32 (wrap32 (token - shift_start) + 1).

(** What the decoder emits for one token. *)
Definition expand (token : Z) : list Z :=
  if in_shift_range shift_start shift_end token
  then replicate (Z.to_nat (shift_count token)) shift_start
  else [token].


(** Every shift token of the sequence is the canonical one, the start of the
    shift range. *)
Definition canonical (l : list Z) : Prop :=
  Forall (λ t, in_shift_range shift_start shift_end t = true → t = shift_start) l.

(** Every run of shift tokens, re-encoded as [shift_start + (length - 1)],
    stays within the shift range; [run] is the length of the run that ends
    just before [l]. *)
Fixpoint runs_fit (run : nat) (l : list Z) : bool :=
  match l with
  | [] => true
  | t :: rest =>
      if in_shift_range shift_start shift_end t
      then (shift_start + Z.of_nat (S run) - 1 <=? shift_end) && runs_fit (S run) rest
      else runs_fit O rest
  end.

(** The tokens outside the shift range, in order. *)
Definition non_shift (l : list Z) : list Z :=
  filter (λ t, in_shift_range shift_start shift_end t = false) l.

End shift_runs.

(** The fixtures of [run_length_encoding_test.py]. *)
Definition beyond_max_length_input : list Z := replicate 202 1 ++ [161; 1; 1; 1].
Definition state_changes_input : list Z :=
  [3; 525; 356; 161; 2; 525; 356; 161; 355; 394].
Definition state_changes_expected : list Z := [3; 525; 356; 161; 2; 161; 355; 394].
Definition merge_left : list Z := [3; 161; 162; 5; 163].
Definition merge_right : list Z := [160; 164; 3; 165; 0].
Definition merge_expected : list Z := [160; 164; 3; 161; 162; 165; 5; 163].

(** A codec laid out the way the token numbers of those fixtures presume:
    a shift range first, so that pitch tokens start at 101, velocity at 229,
    drum at 357 and program at 485. *)
Definition shift_first_codec : Codec :=
  built (Codec_init ("shift" :: rle_test_types) (<["shift" := (0, 97)]> rle_test_ranges)).

(** * Properties *)

(** ** The codec *)

Section codec_facts.

Implicit Types (c : Codec) (ranges : gmap string (Z * Z)) (types : list string).

(** The construction loop fails exactly at the first type without a range. *)
Lemma init_loop_ok ranges types tr off :
  (∀ t, t ∈ types → is_Some (ranges !! t)) →
  ∃ tr' off', init_loop ranges types tr off = Ok (tr', off').
Proof.
  revert tr off. induction types as [|t types IH]; intros tr off Hall; simpl.
  - eauto.
  - destruct (Hall t) as [[mn mx] Ht]; [left|].
    rewrite Ht. apply IH. intros t' Ht'. apply Hall. by right.
Qed.

Lemma init_loop_ok_inv ranges types tr off r :
  init_loop ranges types tr off = Ok r →
  ∀ t, t ∈ types → is_Some (ranges !! t).
Proof.
  revert tr off. induction types as [|t types IH]; intros tr off Hok t' Ht'.
  - by apply elem_of_nil in Ht'.
  - simpl in Hok. destruct (ranges !! t) as [[mn mx]|] eqn:Ht; [|discriminate].
    apply elem_of_cons in Ht' as [->|Ht']; [by eexists|].
    eapply IH; eauto.
Qed.

Lemma Codec_init_fields types ranges c :
  Codec_init types ranges = Ok c →
  event_types c = types ∧ event_ranges c = ranges ∧ pad_token c = 0 ∧
  sos_token c = 1 ∧ eos_token c = 2 ∧ num_special_tokens c = 3.
Proof.
  unfold Codec_init. destruct (init_loop ranges types ∅ 0) as [[tr off]|e]; simpl;
    [|discriminate].
  intros [= <-]. done.
Qed.


Lemma event_type_range_unregistered (c : Codec) (name : string) :
  name ∉ event_types c →
  event_type_range name c = (Raise (UnknownEventType name), c).
Proof.
  intros Hnot. unfold event_type_range, mbind, codec_op_bind, attr, raise.
  simpl. by rewrite (bool_decide_eq_false_2 _ Hnot).
Qed.

Lemma encode_event_unregistered (c : Codec) (event : Event) :
  type event ∉ event_types c →
  encode_event event c = (Raise (UnknownEventType (type event)), c).
Proof.
  intros Hnot. unfold encode_event, mbind, codec_op_bind, attr, raise.
  simpl. by rewrite (bool_decide_eq_false_2 _ Hnot).
Qed.

(** Registered names never take that path. *)
Lemma event_type_range_registered (c : Codec) (name : string) (r : Z * Z) :
  name ∈ event_types c → event_ranges c !! name = Some r →
  event_type_range name c = (Ok r, c).
Proof.
  intros Hin Hr. unfold event_type_range, mbind, codec_op_bind, attr, raise. simpl.
  rewrite (bool_decide_eq_true_2 _ Hin). simpl. by rewrite Hr.
Qed.

(** No method of the codec writes to [self]: whatever the outcome, the
    object after the call is the object before it. *)
Lemma encode_event_pure (c : Codec) (event : Event) :
  snd (encode_event event c) = c.
Proof.
  unfold encode_event, mbind, codec_op_bind, attr, raise, lift, mret, codec_op_ret.
  simpl. destruct (bool_decide _); simpl; [|done].
  by destruct (encode_loop _ _ _ _).
Qed.

Lemma decode_event_pure (c : Codec) (token : Z) :
  snd (decode_event token c) = c.
Proof.
  unfold decode_event, mbind, codec_op_bind, attr, raise, lift, mret, codec_op_ret.
  simpl. by destruct (token <? _).
Qed.

Lemma event_type_range_pure (c : Codec) (name : string) :
  snd (event_type_range name c) = c.
Proof.
  unfold event_type_range, mbind, codec_op_bind, attr, raise, lift, mret, codec_op_ret.
  simpl. destruct (bool_decide _); simpl; [|done].
  by destruct (event_ranges c !! name).
Qed.

End codec_facts.

(** C9. For an event type name that is not registered in the codec,
    [encode_event] on an event of that type and [event_type_range] on that
    name both raise the unknown-event-type error ([ValueError] with the
    message "Unknown event type: <name>"), and the codec object is left as it
    was. *)
Theorem unknown_event_type_raises (c : Codec) (name : string) (v : Z) :
  name ∉ event_types c →
  encode_event (mkEvent name v) c = (Raise (UnknownEventType name), c) ∧
  event_type_range name c = (Raise (UnknownEventType name), c).
Proof.
  intros Hnot. split.
  - by apply (encode_event_unregistered c (mkEvent name v)).
  - by apply event_type_range_unregistered.
Qed.

Lemma unknown_event_type_raises_witness :
  encode_event (mkEvent "invalid_type" 7) rle_test_codec
    = (Raise (UnknownEventType "invalid_type"), rle_test_codec) ∧
  event_type_range "invalid_type" rle_test_codec
    = (Raise (UnknownEventType "invalid_type"), rle_test_codec).
Proof.
  apply (unknown_event_type_raises rle_test_codec "invalid_type" 7).
  apply (bool_decide_unpack _). vm_compute. exact I.
Defined.

(** C7. [vocabulary_from_codec] does not return a summary: for every codec
    it raises [AttributeError] at [codec.eos_id], since a codec has the
    attributes [pad_token], [sos_token] and [eos_token] but none called
    [eos_id], [pad_id] or [unk_id]. *)
Theorem vocabulary_from_codec_raises (c : Codec) :
  vocabulary_from_codec c = (Raise (NoAttribute "eos_id"), c) ∧
  getattr "num_classes" c = (Ok (PInt (num_classes c)), c) ∧
  getattr "pad_id" c = (Raise (NoAttribute "pad_id"), c) ∧
  getattr "unk_id" c = (Raise (NoAttribute "unk_id"), c) ∧
  getattr "eos_token" c = (Ok (PInt (eos_token c)), c).
Proof. repeat split. Qed.

(** With a codec in which [shift] is not registered, the run-length functions
    stop at their [event_type_range('shift')] lookup. *)
Lemma run_length_without_shift (c : Codec) (tokens : list Z) :
  "shift" ∉ event_types c →
  run_length_encode_shifts tokens c = (Raise (UnknownEventType "shift"), c) ∧
  run_length_decode_shifts tokens c = (Raise (UnknownEventType "shift"), c).
Proof.
  intros Hc. unfold run_length_encode_shifts, run_length_decode_shifts.
  unfold mbind, codec_op_bind.
  by rewrite (event_type_range_unregistered c "shift" Hc).
Qed.

(** C8. Whatever the configuration, [build_codec] returns a codec in which
    no event type named [shift] is registered, and with that codec both
    [run_length_encode_shifts] and [run_length_decode_shifts] raise the
    unknown-event-type error for every token sequence. *)
Theorem build_codec_never_registers_shift (cfg : VocabularyConfig) (tokens : list Z) :
  ∃ c, build_codec cfg = Ok c ∧
       ("shift" ∉ event_types c) ∧
       run_length_encode_shifts tokens c = (Raise (UnknownEventType "shift"), c) ∧
       run_length_decode_shifts tokens c = (Raise (UnknownEventType "shift"), c).
Proof.
  assert (Hbuilt : ∃ c, build_codec cfg = Ok c ∧ "shift" ∉ event_types c).
  { destruct cfg as [bins [] []]; eexists; (split; [vm_compute; reflexivity|]);
      simpl; apply (bool_decide_unpack _); vm_compute; exact I. }
  destruct Hbuilt as (c & Hc & Hshift). exists c.
  split; [done|]. split; [done|]. by apply run_length_without_shift.
Qed.

(** ** Encoding then decoding an event *)

Section zero_based.

Variables (ranges : gmap string (Z * Z)) (ty : string) (mx v : Z).
Hypothesis own_range : ranges !! ty = Some (0, mx).
Hypothesis in_range : 0 ≤ v ≤ mx.

(** Over types whose ranges all start at zero, the decoding scan stops at the
    very type at which the encoding scan stopped. *)
Lemma scan_loops_agree (types : list string) (off : Z) :
  (∀ t, t ∈ types → ∃ m, ranges !! t = Some (0, m) ∧ -1 ≤ m) →
  ty ∈ types →
  ∃ o, encode_loop ranges ty types off = Ok o ∧ off ≤ o ∧
       decode_loop ranges (o + v) types off = Ok (Some (mkEvent ty v)).
Proof.
  revert off. induction types as [|t types IH]; intros off Hzero Hin.
  - by apply elem_of_nil in Hin.
  - simpl. case_bool_decide as Heq.
    + subst t. exists off. rewrite own_range.
      split; [done|]. split; [lia|].
      rewrite (proj2 (Z.ltb_lt _ _)) by lia.
      do 3 f_equal. lia.
    + destruct (Hzero t) as (m & Hm & Hm1); [left|]. rewrite Hm.
      apply elem_of_cons in Hin as [->|Hin]; [done|].
      destruct (IH (off + (m - 0 + 1))) as (o & Henc & Hle & Hdec); [|done|].
      { intros t' Ht'. apply Hzero. by right. }
      exists o. split; [done|]. split; [lia|].
      rewrite (proj2 (Z.ltb_ge _ _)) by lia. done.
Qed.

End zero_based.

(** Where every registered range starts at zero (as in every codec the
    repository itself builds), encoding an in-range event and decoding the
    token gives the event back. *)
Lemma encode_then_decode_zero_based (c : Codec) (ty : string) (mx v : Z) :
  (∀ t, t ∈ event_types c → ∃ m, event_ranges c !! t = Some (0, m) ∧ -1 ≤ m) →
  0 ≤ num_special_tokens c →
  ty ∈ event_types c →
  event_ranges c !! ty = Some (0, mx) →
  0 ≤ v ≤ mx →
  encode_then_decode (mkEvent ty v) c = (Ok (Some (mkEvent ty v)), c).
Proof.
  intros Hzero Hns Hin Hown Hv.
  destruct (scan_loops_agree (event_ranges c) ty mx v Hown Hv (event_types c)
              (num_special_tokens c) Hzero Hin) as (o & Henc & Hle & Hdec).
  unfold encode_then_decode, encode_event, decode_event.
  unfold mbind, codec_op_bind, attr, raise, lift, mret, codec_op_ret. simpl.
  rewrite (bool_decide_eq_true_2 _ Hin). simpl. rewrite Henc.
  rewrite (proj2 (Z.ltb_ge _ _)) by lia. by rewrite Hdec.
Qed.

(** There, two in-range events with the same token are the same event. *)
Lemma encode_event_injective_zero_based (c : Codec) (e1 e2 : Event) (m1 m2 token : Z) :
  (∀ t, t ∈ event_types c → ∃ m, event_ranges c !! t = Some (0, m) ∧ -1 ≤ m) →
  0 ≤ num_special_tokens c →
  type e1 ∈ event_types c → event_ranges c !! type e1 = Some (0, m1) → 0 ≤ value e1 ≤ m1 →
  type e2 ∈ event_types c → event_ranges c !! type e2 = Some (0, m2) → 0 ≤ value e2 ≤ m2 →
  encode_event e1 c = (Ok token, c) → encode_event e2 c = (Ok token, c) →
  e1 = e2.
Proof.
  intros Hzero Hns Hin1 Hr1 Hv1 Hin2 Hr2 Hv2 Henc1 Henc2.
  pose proof (encode_then_decode_zero_based c _ _ _ Hzero Hns Hin1 Hr1 Hv1) as H1.
  pose proof (encode_then_decode_zero_based c _ _ _ Hzero Hns Hin2 Hr2 Hv2) as H2.
  unfold encode_then_decode, mbind, codec_op_bind in H1, H2.
  destruct e1 as [ty1 v1], e2 as [ty2 v2]. simpl in *.
  rewrite Henc1 in H1. rewrite Henc2 in H2. congruence.
Qed.

(** C1. With a range that does not start at zero the round trip and the
    injectivity both fail: in the codec with [pitch : (21, 108)] followed by
    [tie : (0, 0)], the in-range event [pitch 21] encodes to token 24, which
    decodes to [pitch 42]; and the distinct in-range events [pitch 88] and
    [tie 0] both encode to token 91. ([encode_event] adds the value as it is,
    [decode_event] adds [min_value] back.) *)
Theorem encode_decode_nonzero_min :
  Codec_init ["pitch"; "tie"] (list_to_map [ ("pitch", (21, 108)); ("tie", (0, 0)) ])
    = Ok piano_codec ∧
  encode_event (mkEvent "pitch" 21) piano_codec = (Ok 24, piano_codec) ∧
  encode_then_decode (mkEvent "pitch" 21) piano_codec
    = (Ok (Some (mkEvent "pitch" 42)), piano_codec) ∧
  encode_event (mkEvent "pitch" 88) piano_codec = (Ok 91, piano_codec) ∧
  encode_event (mkEvent "tie" 0) piano_codec = (Ok 91, piano_codec).
Proof. repeat split. Qed.

(** The test codecs of the repository have zero-based ranges only, so the
    defect does not show there. *)
Example encode_then_decode_velocity_16 :
  fst (encode_then_decode (mkEvent "velocity" 16)
         (built (Codec_init ["note"; "velocity"] note_velocity_ranges)))
  = Ok (Some (mkEvent "velocity" 16)).
Proof. reflexivity. Qed.

(** ** Range validation *)

(** [Codec.__init__] succeeds exactly when every listed type has an entry in
    the range map; it compares no bounds. *)
Lemma Codec_init_succeeds_iff (types : list string) (ranges : gmap string (Z * Z)) :
  (∀ t, t ∈ types → is_Some (ranges !! t)) ↔ ∃ c, Codec_init types ranges = Ok c.
Proof.
  unfold Codec_init. split.
  - intros Hall. destruct (init_loop_ok ranges types ∅ 0 Hall) as (tr & off & ->).
    simpl. eauto.
  - intros [c Hc].
    destruct (init_loop ranges types ∅ 0) as [r|e] eqn:Hloop; [|discriminate].
    by apply (init_loop_ok_inv ranges types ∅ 0 r).
Qed.

(** The construction loop either runs through, or stops with [KeyError] at
    the first listed type without an entry. *)
Lemma init_loop_cases (ranges : gmap string (Z * Z)) (types : list string)
    (tr : gmap string (Z * Z)) (off : Z) :
  (∃ r, init_loop ranges types tr off = Ok r) ∨
  (∃ pre t post, types = pre ++ t :: post ∧
                 Forall (λ t', is_Some (ranges !! t')) pre ∧ ranges !! t = None ∧
                 init_loop ranges types tr off = Raise (KeyError t)).
Proof.
  revert tr off. induction types as [|t0 types IH]; intros tr off; simpl.
  - left. eauto.
  - destruct (ranges !! t0) as [[mn mx]|] eqn:Ht0.
    + destruct (IH (<[t0 := (mn, mx)]> tr) (off + (mx - mn + 1)))
        as [Hok|(pre & t & post & -> & Hpre & Hnone & Hraise)]; [by left|].
      right. exists (t0 :: pre), t, post. split; [done|].
      split; [constructor; [by eexists|done]|]. done.
    + right. exists [], t0, types. repeat split; done.
Qed.

(** The methods of a codec raise nothing but the unknown-event-type error and
    [KeyError]. *)
Lemma encode_loop_raises (ranges : gmap string (Z * Z)) (ty : string)
    (types : list string) (off : Z) (x : exn) :
  encode_loop ranges ty types off = Raise x → ∃ k, x = KeyError k.
Proof.
  revert off. induction types as [|t0 types IH]; intros off; simpl; [done|].
  destruct (bool_decide (t0 = ty)); [done|].
  destruct (ranges !! t0) as [[mn mx]|]; [apply IH|]. intros [= <-]. eauto.
Qed.

Lemma decode_loop_raises (ranges : gmap string (Z * Z)) (token : Z)
    (types : list string) (cur : Z) (x : exn) :
  decode_loop ranges token types cur = Raise x → ∃ k, x = KeyError k.
Proof.
  revert cur. induction types as [|t0 types IH]; intros cur; simpl; [done|].
  destruct (ranges !! t0) as [[mn mx]|]; [|intros [= <-]; eauto].
  destruct (token <? _); [done|apply IH].
Qed.

Lemma codec_methods_raise (c : Codec) (e : Event) (token : Z) (name : string) (x : exn) :
  fst (encode_event e c) = Raise x ∨ fst (decode_event token c) = Raise x ∨
  fst (event_type_range name c) = Raise x →
  (∃ n, x = UnknownEventType n) ∨ (∃ k, x = KeyError k).
Proof.
  unfold encode_event, decode_event, event_type_range.
  unfold mbind, codec_op_bind, attr, raise, lift, mret, codec_op_ret. simpl.
  intros [H|[H|H]].
  - destruct (bool_decide (type e ∈ event_types c)); simpl in H.
    + destruct (encode_loop _ _ _ _) as [o|x'] eqn:Hloop; simpl in H; [done|].
      injection H as <-. right. by apply encode_loop_raises in Hloop.
    + injection H as <-. left. eauto.
  - destruct (token <? num_special_tokens c); simpl in H; [done|].
    right. by apply decode_loop_raises in H.
  - destruct (bool_decide (name ∈ event_types c)); simpl in H.
    + destruct (event_ranges c !! name); simpl in H; [done|].
      injection H as <-. right. eauto.
    + injection H as <-. left. eauto.
Qed.

Lemma InvalidRange_distinct (a b : Z) :
  (∀ n, InvalidRange a b ≠ UnknownEventType n) ∧ (∀ k, InvalidRange a b ≠ KeyError k).
Proof. split; intros ?; unfold InvalidRange, UnknownEventType; simpl; discriminate. Qed.

(** C10, as the code has it. Constructing an [EventRange] raises the
    invalid-range [ValueError] when [min_value > max_value] and succeeds
    otherwise. Constructing a [Codec] checks no range: it succeeds when every
    listed event type has an entry in the range map, and otherwise raises
    [KeyError] for the first listed type without one. The invalid-range error
    belongs to the construction of an [EventRange] only: neither the
    construction of a [Codec] nor [encode_event], [decode_event] or
    [event_type_range] ever raises it. *)
Theorem range_validation (mn mx : Z) (types : list string)
    (ranges : gmap string (Z * Z)) (c : Codec) (e : Event) (token : Z) (name : string) :
  (mn > mx → EventRange_init mn mx = Raise (InvalidRange mn mx)) ∧
  (mn ≤ mx → EventRange_init mn mx = Ok (mkEventRange mn mx)) ∧
  ((∃ c', Codec_init types ranges = Ok c' ∧ ∀ t, t ∈ types → is_Some (ranges !! t)) ∨
   (∃ pre t post, types = pre ++ t :: post ∧
                  Forall (λ t', is_Some (ranges !! t')) pre ∧ ranges !! t = None ∧
                  Codec_init types ranges = Raise (KeyError t))) ∧
  (∀ a b, Codec_init types ranges ≠ Raise (InvalidRange a b) ∧
          fst (encode_event e c) ≠ Raise (InvalidRange a b) ∧
          fst (decode_event token c) ≠ Raise (InvalidRange a b) ∧
          fst (event_type_range name c) ≠ Raise (InvalidRange a b)).
Proof.
  assert (Hinit : (∃ c', Codec_init types ranges = Ok c' ∧
                         ∀ t, t ∈ types → is_Some (ranges !! t)) ∨
     (∃ pre t post, types = pre ++ t :: post ∧
                    Forall (λ t', is_Some (ranges !! t')) pre ∧ ranges !! t = None ∧
                    Codec_init types ranges = Raise (KeyError t))).
  { unfold Codec_init.
    destruct (init_loop_cases ranges types ∅ 0)
      as [[[tr off] Hok]|(pre & t & post & Htypes & Hpre & Hnone & Hraise)].
    - left. rewrite Hok. simpl. eexists. split; [done|].
      by apply (init_loop_ok_inv ranges types ∅ 0 (tr, off)).
    - right. exists pre, t, post. rewrite Hraise. done. }
  split; [|split; [|split; [done|]]].
  - intros H. unfold EventRange_init.
    by rewrite (proj2 (Z.gtb_gt _ _)) by lia.
  - intros H. unfold EventRange_init.
    destruct (mn >? mx) eqn:E; [|done]. apply Z.gtb_gt in E. lia.
  - intros a b. destruct (InvalidRange_distinct a b) as [Hu Hk].
    assert (Hmethods : ∀ x,
      fst (encode_event e c) = Raise x ∨ fst (decode_event token c) = Raise x ∨
      fst (event_type_range name c) = Raise x → x ≠ InvalidRange a b).
    { intros x Hx Heq. subst x.
      destruct (codec_methods_raise c e token name _ Hx) as [[n Hn]|[k Hk']];
        [by apply (Hu n)|by apply (Hk k)]. }
    split.
    + destruct Hinit as [(c' & -> & _)|(pre & t & post & _ & _ & _ & ->)]; [done|].
      intros H. apply (Hk t). congruence.
    + repeat split; intros H; eapply Hmethods; eauto.
Qed.

Lemma range_validation_witness :
  EventRange_init 5 3 = Raise (InvalidRange 5 3) ∧
  EventRange_init 0 127 = Ok (mkEventRange 0 127).
Proof.
  split.
  - apply (range_validation 5 3 rle_test_types rle_test_ranges rle_test_codec
             (mkEvent "pitch" 60) 63 "pitch"). lia.
  - apply (range_validation 0 127 rle_test_types rle_test_ranges rle_test_codec
             (mkEvent "pitch" 60) 63 "pitch"). lia.
Defined.

(** C10, counterexample to the claim as stated: a [Codec] over a map with
    the inverted range [(5, 3)] is constructed without any error (and counts
    -1 values for it), while a [Codec] over a map with no inverted range can
    still fail, with [KeyError]. *)
Lemma Codec_init_accepts_inverted_range :
  (∃ c, Codec_init ["velocity"] {[ "velocity" := (5, 3) ]} = Ok c ∧
        event_ranges c !! "velocity" = Some (5, 3) ∧ num_classes c = 2) ∧
  Codec_init ["velocity"] {[ "note" := (0, 127) ]} = Raise (KeyError "velocity").
Proof.
  split; [|reflexivity].
  eexists. split; [vm_compute; reflexivity|]. split; reflexivity.
Qed.

(** ** Arithmetic on int32 scalars *)

Lemma in_int32_true (z : Z) : in_int32 z = true ↔ is_int32 z.
Proof.
  unfold in_int32, is_int32. rewrite andb_true_iff, !Z.leb_le. done.
Qed.

Lemma wrap32_id (z : Z) : is_int32 z → wrap32 z = z.
Proof.
  unfold is_int32, int32_min, int32_max, wrap32. intros H.
  rewrite Z.mod_small by lia. lia.
Qed.

Lemma wrap32_range (z : Z) : is_int32 (wrap32 z).
Proof.
  unfold is_int32, int32_min, int32_max, wrap32.
  pose proof (Z.mod_pos_bound (z + 2147483648) 4294967296 ltac:(lia)). lia.
Qed.

Lemma wrap32_add_l (a b : Z) : wrap32 (wrap32 a + b) = wrap32 (a + b).
Proof.
  unfold wrap32. f_equal.
  replace ((a + 2147483648) mod 4294967296 - 2147483648 + b + 2147483648)
    with ((a + 2147483648) mod 4294967296 + b) by lia.
  rewrite Zplus_mod_idemp_l. f_equal. lia.
Qed.

Lemma np_add_int32 (a b : Z) : is_int32 b → np_add a b = Ok (wrap32 (a + b)).
Proof. intros H. unfold np_add. by rewrite (proj2 (in_int32_true b) H). Qed.

Lemma np_sub_int32 (a b : Z) : is_int32 b → np_sub a b = Ok (wrap32 (a - b)).
Proof. intros H. unfold np_sub. by rewrite (proj2 (in_int32_true b) H). Qed.

Lemma np_sub_out_of_bounds (a b : Z) : ¬ is_int32 b → np_sub a b = Raise (OutOfBounds b).
Proof.
  intros H. unfold np_sub. destruct (in_int32 b) eqn:E; [|done].
  by apply in_int32_true in E.
Qed.

Lemma run_token_wrap (t : Z) (count : nat) :
  run_token t count = wrap32 (t + Z.of_nat count - 1).
Proof.
  unfold run_token. replace (wrap32 (t + Z.of_nat count) - 1)
    with (wrap32 (t + Z.of_nat count) + (-1)) by lia.
  rewrite wrap32_add_l. f_equal; lia.
Qed.

Lemma run_token_one (t : Z) : is_int32 t → run_token t 1 = t.
Proof.
  intros H. rewrite run_token_wrap.
  replace (t + Z.of_nat 1 - 1) with t by lia. by apply wrap32_id.
Qed.

Lemma shift_count_wrap (lo t : Z) : shift_count lo t = wrap32 (t - lo + 1).
Proof. unfold shift_count. by rewrite wrap32_add_l. Qed.

(** ** The run-length loops, read on lists *)

Section rle_facts.

Variables lo hi : Z.

Local Abbreviation in_range := (in_shift_range lo hi).

Lemma run_len_le (l : list Z) : (run_len lo hi l ≤ length l)%nat.
Proof. induction l as [|t l IH]; simpl; [lia|]. destruct (in_range t); simpl; lia. Qed.

Lemma run_len_app_all (run rest : list Z) :
  Forall (λ t, in_range t = true) run →
  run_len lo hi (run ++ rest) = (length run + run_len lo hi rest)%nat.
Proof.
  induction 1 as [|t run Ht _ IH]; simpl; [done|]. by rewrite Ht, IH.
Qed.

Lemma run_len_stop (rest : list Z) :
  (∀ t, head rest = Some t → in_range t = false) → run_len lo hi rest = O.
Proof.
  destruct rest as [|t rest]; simpl; [done|]. intros H. by rewrite (H t).
Qed.

(** The inner loop counts the run that starts at [i + count]. *)
Lemma shift_count_loop_spec (fuel : nat) (tokens : list Z) (i count : nat) :
  (length tokens ≤ fuel + (i + count))%nat →
  shift_count_loop fuel tokens lo hi i count
  = (count + run_len lo hi (drop (i + count) tokens))%nat.
Proof.
  revert count. induction fuel as [|fuel IH]; intros count Hfuel; simpl.
  - rewrite drop_ge by lia. simpl. lia.
  - destruct (tokens !! (i + count)%nat) as [t|] eqn:Hi.
    + rewrite (drop_S _ _ _ Hi). simpl. destruct (in_range t); [|lia].
      rewrite IH by lia. replace (i + (count + 1))%nat with (S (i + count)) by lia. lia.
    + apply lookup_ge_None in Hi. rewrite drop_ge by lia. simpl. lia.
Qed.

(** Where the number of tokens fits int32, the outer loop raises nothing and
    appends to [encoded] the encoding of the suffix [tokens[i:]]. *)
Lemma shift_encode_loop_spec (fuel : nat) (tokens : list Z) (i : nat) (encoded : list Z) :
  Z.of_nat (length tokens) ≤ int32_max →
  shift_encode_loop fuel tokens lo hi i encoded
  = Ok (encoded ++ rle_list lo hi fuel (drop i tokens)).
Proof.
  intros Hlen. revert i encoded. induction fuel as [|fuel IH]; intros i encoded; simpl.
  - by rewrite app_nil_r.
  - destruct (tokens !! i) as [t|] eqn:Hi.
    + rewrite (drop_S _ _ _ Hi). destruct (in_range t) eqn:Ht.
      * rewrite shift_count_loop_spec by lia.
        replace (i + 1)%nat with (S i) by lia.
        pose proof (run_len_le (drop (S i) tokens)) as Hrun.
        rewrite length_drop in Hrun. apply lookup_lt_Some in Hi.
        set (n := run_len lo hi (drop (S i) tokens)) in *.
        unfold mbind, result_mbind.
        rewrite np_add_int32 by (unfold is_int32, int32_min, int32_max in *; lia).
        cbn [result_bind]. rewrite IH.
        rewrite <- app_assoc. cbn [app].
        rewrite drop_drop, Nat.add_succ_r. done.
      * rewrite IH. rewrite <- app_assoc. simpl.
        by replace (i + 1)%nat with (S i) by lia.
    + apply lookup_ge_None in Hi. rewrite drop_ge by lia.
      by rewrite app_nil_r.
Qed.

(** Without any token in the shift range the outer loop copies its input,
    whatever its length. *)
Lemma shift_encode_loop_others (fuel : nat) (tokens : list Z) (i : nat) (encoded : list Z) :
  Forall (λ t, in_range t = false) tokens → (length tokens ≤ fuel + i)%nat →
  shift_encode_loop fuel tokens lo hi i encoded = Ok (encoded ++ drop i tokens).
Proof.
  intros Hnone. revert i encoded. induction fuel as [|fuel IH]; intros i encoded Hfuel; simpl.
  - rewrite drop_ge by lia. by rewrite app_nil_r.
  - destruct (tokens !! i) as [t|] eqn:Hi.
    + rewrite (drop_S _ _ _ Hi).
      rewrite (proj1 (Forall_forall _ _) Hnone t) by (by eapply list_elem_of_lookup_2).
      rewrite IH by lia. rewrite <- app_assoc. simpl.
      by replace (i + 1)%nat with (S i) by lia.
    + apply lookup_ge_None in Hi. rewrite drop_ge by lia. by rewrite app_nil_r.
Qed.

(** Fuel beyond the length of the suffix is never used. *)
Lemma rle_list_fuel (f1 f2 : nat) (l : list Z) :
  (length l ≤ f1)%nat → (length l ≤ f2)%nat → rle_list lo hi f1 l = rle_list lo hi f2 l.
Proof.
  revert f2 l. induction f1 as [|f1 IH]; intros f2 l H1 H2.
  - destruct l; [|simpl in H1; lia]. by destruct f2.
  - destruct f2 as [|f2]; [destruct l; [done|simpl in H2; lia]|].
    destruct l as [|t rest]; [done|]. simpl in *.
    destruct (in_range t).
    + f_equal. apply IH; rewrite length_drop; lia.
    + f_equal. apply IH; lia.
Qed.

Lemma shift_encode_loop_rle (fuel : nat) (tokens : list Z) :
  Z.of_nat (length tokens) ≤ int32_max → (length tokens ≤ fuel)%nat →
  shift_encode_loop fuel tokens lo hi 0 [] = Ok (rle lo hi tokens).
Proof.
  intros Hlen Hfuel. rewrite shift_encode_loop_spec by done. simpl. unfold rle.
  f_equal. by apply rle_list_fuel.
Qed.

Lemma rle_nil : rle lo hi [] = [].
Proof. done. Qed.

Lemma rle_cons_other (t : Z) (rest : list Z) :
  in_range t = false → rle lo hi (t :: rest) = t :: rle lo hi rest.
Proof. intros Ht. unfold rle. simpl. by rewrite Ht. Qed.

Lemma rle_cons_shift (t : Z) (rest : list Z) :
  in_range t = true →
  rle lo hi (t :: rest)
  = run_token t (S (run_len lo hi rest)) :: rle lo hi (drop (run_len lo hi rest) rest).
Proof.
  intros Ht. unfold rle. simpl length. cbn [rle_list]. rewrite Ht.
  f_equal. apply rle_list_fuel; rewrite length_drop; lia.
Qed.

(** Tokens outside the shift range are copied one for one. *)
Lemma rle_app_others (before l : list Z) :
  Forall (λ t, in_range t = false) before →
  rle lo hi (before ++ l) = before ++ rle lo hi l.
Proof.
  induction 1 as [|t before Ht _ IH]; simpl; [done|].
  by rewrite (rle_cons_other t _ Ht), IH.
Qed.

(** Where [shift_start] fits int32, the decoding loop raises nothing and
    appends to [decoded] the expansion of every token. *)
Lemma shift_decode_loop_spec (tokens decoded : list Z) :
  is_int32 lo →
  shift_decode_loop lo hi tokens decoded = Ok (decoded ++ concat (map (expand lo hi) tokens)).
Proof.
  intros Hlo. revert decoded. induction tokens as [|t tokens IH]; intros decoded; simpl.
  - by rewrite app_nil_r.
  - unfold expand. destruct (in_range t).
    + unfold mbind, result_mbind. rewrite np_sub_int32 by done. cbn [result_bind].
      rewrite IH, <- app_assoc. done.
    + rewrite IH, <- app_assoc. done.
Qed.

(** Without any token in the shift range the decoding loop copies its
    input, whatever [shift_start] is. *)
Lemma shift_decode_loop_others (tokens decoded : list Z) :
  Forall (λ t, in_range t = false) tokens →
  shift_decode_loop lo hi tokens decoded = Ok (decoded ++ tokens).
Proof.
  intros Hnone. revert decoded.
  induction Hnone as [|t tokens Ht _ IH]; intros decoded; simpl.
  - by rewrite app_nil_r.
  - rewrite Ht, IH, <- app_assoc. done.
Qed.

(** A shift token makes the decoding loop raise when [shift_start] does not
    fit int32. *)
Lemma shift_decode_loop_overflow (before rest : list Z) (t : Z) (decoded : list Z) :
  Forall (λ t, in_range t = false) before → in_range t = true → ¬ is_int32 lo →
  shift_decode_loop lo hi (before ++ t :: rest) decoded = Raise (OutOfBounds lo).
Proof.
  intros Hbefore Ht Hlo. revert decoded.
  induction Hbefore as [|u before Hu _ IH]; intros decoded; simpl.
  - rewrite Ht. by rewrite np_sub_out_of_bounds.
  - rewrite Hu. apply IH.
Qed.

End rle_facts.

Section rle_round_trip.

Variables lo hi : Z.

Local Abbreviation in_range := (in_shift_range lo hi).

Lemma in_range_start (t : Z) : in_range t = true → in_range lo = true.
Proof.
  unfold in_shift_range. rewrite !andb_true_iff, !Z.leb_le. lia.
Qed.

(** A run of canonical shift tokens is a block of [shift_start]. *)
Lemma canonical_run (l : list Z) :
  canonical lo hi l →
  take (run_len lo hi l) l = replicate (run_len lo hi l) lo.
Proof.
  induction 1 as [|t l Ht _ IH]; simpl; [done|].
  destruct (in_range t) eqn:E; simpl; [|done]. rewrite IH. f_equal. by apply Ht.
Qed.

Lemma runs_fit_other (k : nat) (t : Z) (rest : list Z) :
  in_range t = false → runs_fit lo hi k (t :: rest) = runs_fit lo hi 0 rest.
Proof. intros Ht. simpl. by rewrite Ht. Qed.

(** If the runs fit, the run that starts here fits and so do the runs after it. *)
Lemma runs_fit_run (k : nat) (l : list Z) :
  runs_fit lo hi k l = true →
  runs_fit lo hi 0 (drop (run_len lo hi l) l) = true ∧
  (run_len lo hi l ≠ O → lo + Z.of_nat (k + run_len lo hi l) - 1 ≤ hi).
Proof.
  revert k. induction l as [|t rest IH]; intros k Hfit; simpl.
  - done.
  - simpl in Hfit. destruct (in_range t) eqn:Ht; simpl.
    + apply andb_true_iff in Hfit as [Hk Hfit]. apply Z.leb_le in Hk.
      destruct (IH _ Hfit) as [Hrest Hbound]. split; [done|]. intros _.
      destruct (decide (run_len lo hi rest = O)) as [E|E].
      * rewrite E. replace (k + 1)%nat with (S k) by lia. lia.
      * specialize (Hbound E).
        replace (k + S (run_len lo hi rest))%nat
          with (S k + run_len lo hi rest)%nat by lia. done.
    + rewrite Ht. done.
Qed.

Lemma non_shift_drop_run (l : list Z) :
  non_shift lo hi (drop (run_len lo hi l) l) = non_shift lo hi l.
Proof.
  unfold non_shift. induction l as [|t rest IH]; simpl; [done|].
  destruct (in_range t) eqn:Ht; simpl; [|done].
  rewrite IH. rewrite filter_cons_False; [done|]. by rewrite Ht.
Qed.

(** Decoding expands shift tokens to shift tokens and copies the others. *)
Lemma non_shift_expand (s : list Z) :
  non_shift lo hi (concat (map (expand lo hi) s)) = non_shift lo hi s.
Proof.
  unfold non_shift. induction s as [|t s IH]; simpl; [done|].
  rewrite filter_app, IH. unfold expand. destruct (in_range t) eqn:Ht.
  - rewrite (filter_cons_False _ t) by (by rewrite Ht).
    assert (Hnil : ∀ n, filter (λ t, in_range t = false) (replicate n lo) = []).
    { induction n as [|n IHn]; simpl; [done|].
      rewrite filter_cons_False; [done|]. by rewrite (in_range_start t Ht). }
    by rewrite Hnil.
  - by rewrite !filter_cons_True by done.
Qed.

(** The core of the round trip, on the list reading of the two loops: with
    the shift range inside int32 no sum wraps. *)
Lemma rle_expand (n : nat) (seq : list Z) :
  is_int32 lo → is_int32 hi → Z.of_nat n ≤ int32_max →
  (length seq ≤ n)%nat →
  canonical lo hi seq → runs_fit lo hi 0 seq = true →
  concat (map (expand lo hi) (rle lo hi seq)) = seq ∧
  non_shift lo hi (rle lo hi seq) = non_shift lo hi seq.
Proof.
  intros Hlo Hhi. revert seq. induction n as [|n IH]; intros seq Hn Hlen Hcan Hfit.
  - destruct seq; [done|simpl in Hlen; lia].
  - destruct seq as [|t rest]; [done|]. simpl in Hlen.
    destruct (in_range t) eqn:Ht.
    + destruct (runs_fit_run 0 (t :: rest) Hfit) as [Hrest Hbound].
      simpl in Hrest, Hbound. rewrite Ht in Hrest, Hbound. simpl in Hrest.
      specialize (Hbound ltac:(lia)).
      inversion Hcan as [|? ? Hhead Htail]; subst.
      assert (t = lo) as -> by by apply Hhead.
      pose proof (run_len_le lo hi rest) as Hrun.
      set (m := run_len lo hi rest) in *.
      assert (Htoken : run_token lo (S m) = lo + Z.of_nat m).
      { rewrite run_token_wrap.
        replace (lo + Z.of_nat (S m) - 1) with (lo + Z.of_nat m) by lia.
        apply wrap32_id. unfold is_int32, int32_min, int32_max in *. lia. }
      assert (Hcount : shift_count lo (lo + Z.of_nat m) = Z.of_nat (S m)).
      { rewrite shift_count_wrap.
        replace (lo + Z.of_nat m - lo + 1) with (Z.of_nat (S m)) by lia.
        apply wrap32_id. unfold is_int32, int32_min, int32_max in *. lia. }
      assert (Henc : in_range (lo + Z.of_nat m) = true).
      { unfold in_shift_range. apply andb_true_iff. rewrite !Z.leb_le. lia. }
      destruct (IH (drop m rest)) as [IHdec IHpass].
      { lia. }
      { rewrite length_drop. lia. }
      { by apply Forall_drop. }
      { done. }
      rewrite (rle_cons_shift lo hi lo rest Ht). fold m. rewrite Htoken.
      cbn [map concat]. split.
      * rewrite IHdec. unfold expand. rewrite Henc, Hcount, Nat2Z.id.
        simpl. f_equal. unfold m. rewrite <- (canonical_run rest Htail).
        apply take_drop.
      * unfold non_shift in *. rewrite filter_cons_False by (by rewrite Henc).
        rewrite filter_cons_False by (by rewrite Ht).
        rewrite IHpass. apply non_shift_drop_run.
    + rewrite (rle_cons_other lo hi t rest Ht). simpl.
      rewrite runs_fit_other in Hfit by done.
      inversion Hcan as [|? ? Hhead Htail]; subst.
      destruct (IH rest) as [IHdec IHpass]; [lia|lia|done|done|].
      split.
      * unfold expand at 1. rewrite Ht. simpl. by rewrite IHdec.
      * unfold non_shift in *. rewrite !filter_cons_True by done. by rewrite IHpass.
Qed.


End rle_round_trip.

(** The two functions on a codec in which [shift] is registered. *)
Lemma run_length_encode_with_shift (c : Codec) (lo hi : Z) (tokens : list Z) :
  "shift" ∈ event_types c → event_ranges c !! "shift" = Some (lo, hi) →
  Z.of_nat (length tokens) ≤ int32_max →
  run_length_encode_shifts tokens c = (Ok (rle lo hi tokens), c).
Proof.
  intros Hin Hr Hlen. unfold run_length_encode_shifts, mbind, codec_op_bind.
  rewrite (event_type_range_registered c "shift" (lo, hi) Hin Hr).
  unfold lift. by rewrite shift_encode_loop_rle.
Qed.

Lemma run_length_decode_with_shift (c : Codec) (lo hi : Z) (tokens : list Z) :
  "shift" ∈ event_types c → event_ranges c !! "shift" = Some (lo, hi) →
  is_int32 lo →
  run_length_decode_shifts tokens c = (Ok (concat (map (expand lo hi) tokens)), c).
Proof.
  intros Hin Hr Hlo. unfold run_length_decode_shifts, mbind, codec_op_bind.
  rewrite (event_type_range_registered c "shift" (lo, hi) Hin Hr).
  unfold lift. by rewrite shift_decode_loop_spec.
Qed.

(** The encoder never stops short: the length of the input is always enough
    iterations, and more change nothing. *)
Lemma shift_encode_loop_total (lo hi : Z) (tokens : list Z) (extra : nat) :
  Z.of_nat (length tokens) ≤ int32_max →
  shift_encode_loop (length tokens + extra) tokens lo hi 0 []
  = shift_encode_loop (length tokens) tokens lo hi 0 [].
Proof. intros Hlen. rewrite !shift_encode_loop_rle by (done || lia). done. Qed.

(** Every outcome of the encoder on fewer than 2^31 tokens: an exception from
    the range lookup, or the encoding over the registered range. *)
Lemma run_length_encode_shifts_cases (c : Codec) (tokens : list Z) :
  Z.of_nat (length tokens) ≤ int32_max →
  (∃ e, run_length_encode_shifts tokens c = (Raise e, c)) ∨
  (∃ lo hi, run_length_encode_shifts tokens c = (Ok (rle lo hi tokens), c)).
Proof.
  intros Hlen. destruct (decide ("shift" ∈ event_types c)) as [Hin|Hnot].
  - destruct (event_ranges c !! "shift") as [[lo hi]|] eqn:Hr.
    + right. exists lo, hi. by apply run_length_encode_with_shift.
    + left. exists (KeyError "shift").
      unfold run_length_encode_shifts, event_type_range.
      unfold mbind, codec_op_bind, attr, raise. simpl.
      rewrite (bool_decide_eq_true_2 _ Hin). simpl. by rewrite Hr.
  - left. exists (UnknownEventType "shift"). by apply run_length_without_shift.
Qed.

(** ** Run-length shift encoding *)

(** C2. The encoder has no cap: on the fixture [[1]*202 + [161,1,1,1]] it
    never produces [[100,100,2,161]]. Whatever the codec, it either raises or
    its first output token is 1 (when 1 is no shift token) or at least 202
    (the whole run in one token). With the codec of the test module it raises
    the unknown-event-type error; with a codec whose shift range is
    [(1, 100)] it returns [[202, 161, 3]]. *)
Theorem shift_runs_are_not_capped (c : Codec) :
  ((∃ e, fst (run_length_encode_shifts beyond_max_length_input c) = Raise e) ∨
   (∃ first rest,
      fst (run_length_encode_shifts beyond_max_length_input c) = Ok (first :: rest) ∧
      (first = 1 ∨ 202 ≤ first))) ∧
  fst (run_length_encode_shifts beyond_max_length_input rle_test_codec)
    = Raise (UnknownEventType "shift") ∧
  fst (run_length_encode_shifts beyond_max_length_input (shift_only_codec 1 100))
    = Ok [202; 161; 3].
Proof.
  split; [|split; vm_compute; reflexivity].
  destruct (run_length_encode_shifts_cases c beyond_max_length_input)
    as [[e He]|(lo & hi & Hok)]; [by vm_compute| |].
  - left. exists e. by rewrite He.
  - right. rewrite Hok. simpl fst.
    change beyond_max_length_input with (1 :: (replicate 201 1 ++ [161; 1; 1; 1])).
    destruct (in_shift_range lo hi 1) eqn:H1.
    + rewrite (rle_cons_shift lo hi 1 _ H1). eexists _, _. split; [reflexivity|].
      right. rewrite run_token_wrap.
      pose proof (run_len_le lo hi (replicate 201 1 ++ [161; 1; 1; 1])) as Hle.
      rewrite run_len_app_all in * by (by apply Forall_replicate).
      rewrite length_app, length_replicate in Hle. simpl length in Hle.
      rewrite length_replicate in *.
      rewrite wrap32_id; unfold is_int32, int32_min, int32_max; lia.
    + rewrite (rle_cons_other lo hi 1 _ H1). eexists _, _. split; [reflexivity|].
      by left.
Qed.




(** C4. With [shift] registered over a range inside int32, for a sequence
    of fewer than 2^31 int32 tokens whose shift tokens are all the start of
    the shift range and whose runs, re-encoded, stay within the range,
    decoding the encoding gives the sequence back; the tokens outside the
    shift range are the same, in the same order, before and after encoding,
    and before and after decoding (of any int32 sequence [s]). *)
Theorem run_length_round_trip (c : Codec) (lo hi : Z) (seq s : list Z) :
  "shift" ∈ event_types c → event_ranges c !! "shift" = Some (lo, hi) →
  is_int32 lo → is_int32 hi →
  Forall is_int32 seq → Forall is_int32 s →
  Z.of_nat (length seq) ≤ int32_max →
  canonical lo hi seq →
  runs_fit lo hi 0 seq = true →
  ∃ enc dec,
    run_length_encode_shifts seq c = (Ok enc, c) ∧
    run_length_decode_shifts enc c = (Ok seq, c) ∧
    non_shift lo hi enc = non_shift lo hi seq ∧
    run_length_decode_shifts s c = (Ok dec, c) ∧
    non_shift lo hi dec = non_shift lo hi s.
Proof.
  intros Hin Hr Hlo Hhi _ _ Hlen Hcan Hfit.
  exists (rle lo hi seq), (concat (map (expand lo hi) s)).
  destruct (rle_expand lo hi (length seq) seq Hlo Hhi Hlen (le_n _) Hcan Hfit)
    as [Hdec Hpass].
  rewrite (run_length_encode_with_shift c lo hi seq Hin Hr Hlen).
  rewrite (run_length_decode_with_shift c lo hi (rle lo hi seq) Hin Hr Hlo).
  rewrite (run_length_decode_with_shift c lo hi s Hin Hr Hlo).
  rewrite Hdec. split; [done|]. split; [done|]. split; [done|]. split; [done|].
  apply non_shift_expand.
Qed.

Lemma run_length_round_trip_witness :
  ∃ enc dec,
    run_length_encode_shifts [1; 1; 1; 161; 1; 1; 1; 162; 1; 1; 1] (shift_only_codec 1 100)
      = (Ok enc, shift_only_codec 1 100) ∧
    run_length_decode_shifts enc (shift_only_codec 1 100)
      = (Ok [1; 1; 1; 161; 1; 1; 1; 162; 1; 1; 1], shift_only_codec 1 100) ∧
    non_shift 1 100 enc = non_shift 1 100 [1; 1; 1; 161; 1; 1; 1; 162; 1; 1; 1] ∧
    run_length_decode_shifts [3; 161; 6; 162] (shift_only_codec 1 100)
      = (Ok dec, shift_only_codec 1 100) ∧
    non_shift 1 100 dec = non_shift 1 100 [3; 161; 6; 162].
Proof.
  apply (run_length_round_trip (shift_only_codec 1 100) 1 100
           [1; 1; 1; 161; 1; 1; 1; 162; 1; 1; 1] [3; 161; 6; 162]).
  - apply (bool_decide_unpack _). vm_compute. exact I.
  - vm_compute. reflexivity.
  - vm_compute. split; discriminate.
  - vm_compute. split; discriminate.
  - repeat constructor; vm_compute; discriminate.
  - repeat constructor; vm_compute; discriminate.
  - vm_compute. discriminate.
  - repeat constructor; vm_compute; congruence.
  - vm_compute. reflexivity.
Defined.

(** ** Redundant state changes and merging *)

(** The remover only deletes tokens: what it returns is a subsequence of its
    input, in the input's order, and the codec is left as it was. *)
Lemma remove_loop_sublist (reset : bool) (tracked : list string) (tokens : list Z) :
  ∀ (active : gmap string Z) (c c' : Codec) (out : list Z),
    remove_loop reset tracked active tokens c = (Ok out, c') →
    sublist out tokens ∧ c' = c.
Proof.
  induction tokens as [|token rest IH]; intros active c c' out Hrun.
  - injection Hrun as <- <-. done.
  - simpl in Hrun. unfold mbind at 1, codec_op_bind at 1 in Hrun.
    pose proof (decode_event_pure c token) as Hpure.
    destruct (decode_event token c) as [[event|e] c1]; simpl in Hpure; subst c1;
      [|discriminate].
    assert (Hemit : ∀ active',
      (out' ← remove_loop reset tracked active' rest; mret (token :: out')) c
        = (Ok out, c') → sublist out (token :: rest) ∧ c' = c).
    { intros active' H. unfold mbind, codec_op_bind in H.
      destruct (remove_loop reset tracked active' rest c) as [[out'|e] c2] eqn:Hrest;
        [|discriminate].
      injection H as <- <-. destruct (IH _ _ _ _ Hrest) as [Hsub ->].
      split; [by constructor|done]. }
    destruct event as [ev|].
    + destruct (bool_decide (type ev ∈ tracked)); [|by eapply Hemit].
      destruct (bool_decide (active !! type ev = Some (value ev))); [|by eapply Hemit].
      destruct (IH _ _ _ _ Hrun) as [Hsub ->]. split; [by constructor|done].
    + unfold mbind at 1, codec_op_bind at 1, attr at 1 in Hrun.
      by eapply Hemit.
Qed.

(** C5. On the codec of the test module the fixture is not reproduced. In
    that codec token 525 lies beyond the vocabulary, 356 is a drum token and
    161 is the velocity token of value 30; so a remover that follows the
    specification keeps the second [525, 356] and drops the second 161 (or,
    when the boundary token 2 resets the tracked state, drops nothing). The
    expected output comes out only on a codec that reserves a shift range
    before the pitch range. *)
Theorem remove_redundant_fixture :
  Codec_init rle_test_types rle_test_ranges = Ok rle_test_codec ∧
  fst (decode_event 525 rle_test_codec) = Ok None ∧
  fst (decode_event 356 rle_test_codec) = Ok (Some (mkEvent "drum" 97)) ∧
  fst (decode_event 161 rle_test_codec) = Ok (Some (mkEvent "velocity" 30)) ∧
  fst (remove_redundant_state_changes false ["velocity"; "program"]
         state_changes_input rle_test_codec)
    = Ok [3; 525; 356; 161; 2; 525; 356; 355; 394] ∧
  fst (remove_redundant_state_changes true ["velocity"; "program"]
         state_changes_input rle_test_codec)
    = Ok state_changes_input ∧
  fst (remove_redundant_state_changes false ["velocity"; "program"]
         state_changes_input shift_first_codec)
    = Ok state_changes_expected.
Proof. repeat split. Qed.

(** C6. On the codec of the test module, merging the fixture raises the
    unknown-event-type error at the first [event_type_range('shift')] lookup,
    as that codec registers no [shift] type. The expected output comes out
    only on a codec that does register one. *)
Theorem merge_fixture :
  merge_run_length_encoded_targets merge_left merge_right rle_test_codec
    = (Raise (UnknownEventType "shift"), rle_test_codec) ∧
  fst (merge_run_length_encoded_targets merge_left merge_right shift_first_codec)
    = Ok merge_expected ∧
  fst (merge_run_length_encoded_targets merge_left merge_right (shift_only_codec 0 100))
    = Ok merge_expected.
Proof. repeat split. Qed.

(** * Further properties of the code *)

(** ** The token layout of a codec *)

Section codec_layout.

Variable ranges : gmap string (Z * Z).

Local Abbreviation has_range := (λ t : string, is_Some (ranges !! t)).
Local Abbreviation nonneg_size :=
  (λ t : string, ∃ mn mx, ranges !! t = Some (mn, mx) ∧ mn ≤ mx + 1).

Lemma range_size_lookup (t : string) (mn mx : Z) :
  ranges !! t = Some (mn, mx) → range_size ranges t = mx - mn + 1.
Proof. intros H. unfold range_size. by rewrite H. Qed.

Lemma total_size_app (l1 l2 : list string) :
  total_size ranges (l1 ++ l2) = total_size ranges l1 + total_size ranges l2.
Proof. induction l1 as [|t l1 IH]; simpl; lia. Qed.

Lemma total_size_nonneg (types : list string) :
  Forall nonneg_size types → 0 ≤ total_size ranges types.
Proof.
  induction 1 as [|t types (mn & mx & Ht & Hle) _ IH]; simpl; [lia|].
  rewrite (range_size_lookup t mn mx Ht). lia.
Qed.

(** The construction loop adds up the range sizes and copies the ranges of
    the listed types. *)
Lemma init_loop_result (types : list string) (tr tr' : gmap string (Z * Z))
    (off off' : Z) :
  init_loop ranges types tr off = Ok (tr', off') →
  off' = off + total_size ranges types ∧
  ∀ t, tr' !! t = if decide (t ∈ types) then ranges !! t else tr !! t.
Proof.
  revert tr off. induction types as [|t0 types IH]; intros tr off Hloop; simpl in *.
  - injection Hloop as <- <-. split; [lia|]. intros t.
    destruct (decide (t ∈ [])) as [H|_]; [by apply elem_of_nil in H|done].
  - destruct (ranges !! t0) as [[mn mx]|] eqn:Ht0; [|discriminate].
    destruct (IH _ _ Hloop) as [-> Hlook].
    rewrite (range_size_lookup t0 mn mx Ht0). split; [lia|]. intros t.
    rewrite Hlook. destruct (decide (t ∈ types)) as [Hin|Hnin].
    + rewrite decide_True by (by right). done.
    + destruct (decide (t = t0)) as [->|Hne].
      * rewrite decide_True by left. by rewrite lookup_insert_eq.
      * rewrite decide_False by (rewrite elem_of_cons; tauto).
        by rewrite lookup_insert_ne.
Qed.

(** The construction loop stops at the first type without a range. *)
Lemma init_loop_missing (pre post : list string) (t : string)
    (tr : gmap string (Z * Z)) (off : Z) :
  Forall has_range pre → ranges !! t = None →
  init_loop ranges (pre ++ t :: post) tr off = Raise (KeyError t).
Proof.
  intros Hpre Hnone. revert tr off.
  induction Hpre as [|t0 pre [[mn mx] Ht0] _ IH]; intros tr off; simpl.
  - by rewrite Hnone.
  - rewrite Ht0. apply IH.
Qed.

(** The encoding scan adds up the sizes of the types before the first
    occurrence of the event's type. *)
Lemma encode_loop_offset (ty : string) (pre post : list string) (off : Z) :
  Forall has_range pre → ty ∉ pre →
  encode_loop ranges ty (pre ++ ty :: post) off = Ok (off + total_size ranges pre).
Proof.
  intros Hpre. revert off.
  induction Hpre as [|t0 pre [[mn mx] Ht0] _ IH]; intros off Hnotin; simpl.
  - rewrite bool_decide_eq_true_2 by done. f_equal. lia.
  - rewrite bool_decide_eq_false_2 by (intros ->; apply Hnotin; left).
    rewrite Ht0, IH by (intros H; apply Hnotin; by right).
    rewrite (range_size_lookup t0 mn mx Ht0). f_equal. lia.
Qed.

(** Where the decoding scan finds an event: at a type whose span, laid after
    the spans of the types before it, contains the token. *)
Lemma decode_loop_some (token : Z) (types : list string) (cur : Z) (ev : Event) :
  decode_loop ranges token types cur = Ok (Some ev) → cur ≤ token →
  ∃ pre post mn mx,
    types = pre ++ type ev :: post ∧ Forall has_range pre ∧
    ranges !! type ev = Some (mn, mx) ∧
    cur + total_size ranges pre ≤ token < cur + total_size ranges pre + (mx - mn + 1) ∧
    value ev = token - (cur + total_size ranges pre) + mn.
Proof.
  revert cur. induction types as [|t0 types IH]; intros cur Hdec Hle; simpl in Hdec.
  - discriminate.
  - destruct (ranges !! t0) as [[mn mx]|] eqn:Ht0; [|discriminate].
    destruct (token <? cur + (mx - mn + 1)) eqn:Hlt.
    + injection Hdec as <-. apply Z.ltb_lt in Hlt.
      exists [], types, mn, mx. simpl. repeat split; try done; lia.
    + apply Z.ltb_ge in Hlt.
      destruct (IH _ Hdec Hlt) as (pre & post & mn' & mx' & -> & Hpre & Hr & Hspan & Hval).
      exists (t0 :: pre), post, mn', mx'. simpl.
      rewrite (range_size_lookup t0 mn mx Ht0).
      split; [done|]. split; [constructor; [by eexists|done]|]. split; [done|].
      split; [lia|]. rewrite Hval. lia.
Qed.

(** Where every listed type has a range, the decoding scan raises nothing. *)
Lemma decode_loop_total (token : Z) (types : list string) (cur : Z) :
  Forall has_range types → ∃ r, decode_loop ranges token types cur = Ok r.
Proof.
  intros Hall. revert cur.
  induction Hall as [|t0 types [[mn mx] Ht0] _ IH]; intros cur; simpl; [eauto|].
  rewrite Ht0. destruct (token <? _); eauto.
Qed.

(** Where no range is inverted by more than the empty range, the decoding
    scan finds nothing exactly for the tokens at or beyond the end of the
    last span. *)
Lemma decode_loop_none (token : Z) (types : list string) (cur : Z) :
  Forall nonneg_size types → cur ≤ token →
  decode_loop ranges token types cur = Ok None ↔ cur + total_size ranges types ≤ token.
Proof.
  intros Hall. revert cur.
  induction Hall as [|t0 types (mn & mx & Ht0 & Hsize) Hrest IH]; intros cur Hle; simpl.
  - split; [lia|done].
  - rewrite Ht0, (range_size_lookup t0 mn mx Ht0).
    pose proof (total_size_nonneg types Hrest) as Hnn.
    destruct (token <? cur + (mx - mn + 1)) eqn:Hlt.
    + apply Z.ltb_lt in Hlt. split; [discriminate|lia].
    + apply Z.ltb_ge in Hlt. rewrite IH by done. lia.
Qed.

End codec_layout.

(** What a successful construction stores. *)
Lemma Codec_init_result (types : list string) (ranges : gmap string (Z * Z)) (c : Codec) :
  Codec_init types ranges = Ok c →
  event_types c = types ∧ event_ranges c = ranges ∧ num_special_tokens c = 3 ∧
  Forall (λ t, is_Some (ranges !! t)) types ∧
  num_classes c = 3 + total_size ranges types ∧
  ∀ t, token_ranges c !! t = if decide (t ∈ types) then ranges !! t else None.
Proof.
  intros Hinit.
  assert (Hall : Forall (λ t, is_Some (ranges !! t)) types).
  { apply Forall_forall. apply Codec_init_succeeds_iff. eauto. }
  unfold Codec_init in Hinit.
  destruct (init_loop ranges types ∅ 0) as [[tr off]|e] eqn:Hloop; [|discriminate].
  simpl in Hinit. injection Hinit as <-. simpl.
  destruct (init_loop_result ranges types ∅ tr 0 off Hloop) as [-> Hlook].
  do 4 (split; [done|]). split; [lia|].
  intros t. rewrite Hlook. by destruct (decide (t ∈ types)).
Qed.

(** X1. A constructed codec has the special tokens 0, 1, 2 and its
    [num_classes] is 3 plus the sum of [max - min + 1] over the listed event
    types (a type listed twice counts twice). *)
Theorem num_classes_is_total_size (types : list string)
    (ranges : gmap string (Z * Z)) (c : Codec) :
  Codec_init types ranges = Ok c →
  pad_token c = 0 ∧ sos_token c = 1 ∧ eos_token c = 2 ∧ num_special_tokens c = 3 ∧
  num_classes c = 3 + total_size ranges types.
Proof.
  intros Hinit.
  destruct (Codec_init_fields types ranges c Hinit) as (_ & _ & Hpad & Hsos & Heos & Hns).
  destruct (Codec_init_result types ranges c Hinit) as (_ & _ & _ & _ & Hnum & _).
  done.
Qed.

Lemma num_classes_is_total_size_witness :
  pad_token note_velocity_program_codec = 0 ∧
  sos_token note_velocity_program_codec = 1 ∧
  eos_token note_velocity_program_codec = 2 ∧
  num_special_tokens note_velocity_program_codec = 3 ∧
  num_classes note_velocity_program_codec
    = 3 + total_size note_velocity_program_ranges ["note"; "velocity"; "program"].
Proof.
  apply (num_classes_is_total_size ["note"; "velocity"; "program"]
           note_velocity_program_ranges note_velocity_program_codec).
  vm_compute. reflexivity.
Defined.

(** X2. On a constructed codec, [encode_event] of a registered type returns
    3 plus the sizes of the types listed before its first occurrence plus the
    value, for every integer value: the value is not checked against the
    type's range. *)
Theorem encode_event_offset (types pre post : list string)
    (ranges : gmap string (Z * Z)) (c : Codec) (ty : string) (v : Z) :
  Codec_init types ranges = Ok c →
  types = pre ++ ty :: post → ty ∉ pre →
  encode_event (mkEvent ty v) c = (Ok (3 + total_size ranges pre + v), c).
Proof.
  intros Hinit -> Hnotin.
  destruct (Codec_init_result _ ranges c Hinit) as (Htypes & Hranges & Hns & Hall & _).
  apply Forall_app in Hall as [Hpre _].
  unfold encode_event, mbind, codec_op_bind, attr, raise, lift, mret, codec_op_ret.
  simpl. rewrite Htypes.
  rewrite bool_decide_eq_true_2 by (apply elem_of_app; right; left).
  simpl. rewrite Hranges, Hns.
  by rewrite (encode_loop_offset ranges ty pre post 3 Hpre Hnotin).
Qed.

Lemma encode_event_offset_witness :
  encode_event (mkEvent "velocity" 16) note_velocity_codec
    = (Ok (3 + total_size note_velocity_ranges ["note"] + 16), note_velocity_codec) ∧
  encode_event (mkEvent "velocity" 1000) note_velocity_codec
    = (Ok (3 + total_size note_velocity_ranges ["note"] + 1000), note_velocity_codec).
Proof.
  split.
  - apply (encode_event_offset ["note"; "velocity"] ["note"] [] note_velocity_ranges).
    + vm_compute. reflexivity.
    + reflexivity.
    + apply (bool_decide_unpack _). vm_compute. exact I.
  - apply (encode_event_offset ["note"; "velocity"] ["note"] [] note_velocity_ranges).
    + vm_compute. reflexivity.
    + reflexivity.
    + apply (bool_decide_unpack _). vm_compute. exact I.
Defined.

(** The event a token decodes to, on any codec object. *)
Lemma decode_event_some (c : Codec) (token : Z) (ev : Event) :
  decode_event token c = (Ok (Some ev), c) →
  num_special_tokens c ≤ token ∧
  ∃ pre post mn mx,
    event_types c = pre ++ type ev :: post ∧
    Forall (λ t, is_Some (event_ranges c !! t)) pre ∧
    event_ranges c !! type ev = Some (mn, mx) ∧
    mn ≤ value ev ≤ mx ∧
    value ev = token - (num_special_tokens c + total_size (event_ranges c) pre) + mn.
Proof.
  unfold decode_event, mbind, codec_op_bind, attr, raise, lift, mret, codec_op_ret.
  simpl. destruct (token <? num_special_tokens c) eqn:Hlt; [discriminate|].
  apply Z.ltb_ge in Hlt. intros Hdec.
  destruct (decode_loop (event_ranges c) token (event_types c) (num_special_tokens c))
    as [r|e] eqn:Hloop; [|discriminate].
  assert (r = Some ev) as -> by congruence.
  destruct (decode_loop_some _ _ _ _ _ Hloop Hlt)
    as (pre & post & mn & mx & Htypes & Hpre & Hr & Hspan & Hval).
  split; [done|]. exists pre, post, mn, mx. repeat split; try done; lia.
Qed.

(** X3. Whatever [decode_event] returns as an event is a valid event of
    the codec: its type is registered, its value lies within the type's range,
    and the token is no special token. *)
Theorem decode_event_valid (c : Codec) (token : Z) (ev : Event) :
  decode_event token c = (Ok (Some ev), c) →
  num_special_tokens c ≤ token ∧ valid_event c ev.
Proof.
  intros Hdec.
  destruct (decode_event_some c token ev Hdec)
    as (Hle & pre & post & mn & mx & Htypes & _ & Hr & Hv & _).
  split; [done|]. split.
  - rewrite Htypes. apply elem_of_app. right. left.
  - by exists mn, mx.
Qed.

Lemma decode_event_valid_witness :
  num_special_tokens note_velocity_codec ≤ 147 ∧
  valid_event note_velocity_codec (mkEvent "velocity" 16).
Proof.
  apply (decode_event_valid note_velocity_codec 147 (mkEvent "velocity" 16)).
  vm_compute. reflexivity.
Defined.

(** On a constructed codec whose ranges have no negative size, the tokens
    that decode to nothing. *)
Lemma decode_event_none_cases (types : list string) (ranges : gmap string (Z * Z))
    (c : Codec) (token : Z) :
  Codec_init types ranges = Ok c →
  Forall (λ t, ∃ mn mx, ranges !! t = Some (mn, mx) ∧ mn ≤ mx + 1) types →
  (∃ r, decode_event token c = (Ok r, c)) ∧
  (decode_event token c = (Ok None, c) ↔ token < 3 ∨ num_classes c ≤ token).
Proof.
  intros Hinit Hsizes.
  destruct (Codec_init_result _ ranges c Hinit) as (Htypes & Hranges & Hns & Hall & Hnum & _).
  unfold decode_event, mbind, codec_op_bind, attr, raise, lift, mret, codec_op_ret.
  simpl. rewrite Hns, Hnum.
  destruct (token <? 3) eqn:Hlt.
  - apply Z.ltb_lt in Hlt. split; [eauto|]. split; [by left|done].
  - apply Z.ltb_ge in Hlt. rewrite Htypes, Hranges.
    destruct (decode_loop_total ranges token types 3 Hall) as [r Hr].
    pose proof (decode_loop_none ranges token types 3 Hsizes Hlt) as Hnone.
    rewrite Hr in *. split; [eauto|]. split.
    + intros [= ->]. right. by apply Hnone.
    + intros [Hlow|Hhigh]; [lia|]. by rewrite (proj2 Hnone Hhigh).
Qed.

Lemma decode_event_constructed (types : list string) (ranges : gmap string (Z * Z))
    (c : Codec) (token : Z) :
  Codec_init types ranges = Ok c → ∃ r, decode_event token c = (Ok r, c).
Proof.
  intros Hinit.
  destruct (Codec_init_result _ ranges c Hinit) as (Htypes & Hranges & Hns & Hall & _).
  unfold decode_event, mbind, codec_op_bind, attr, raise, lift, mret, codec_op_ret.
  simpl. destruct (token <? num_special_tokens c); [eauto|].
  rewrite Htypes, Hranges.
  destruct (decode_loop_total ranges token types (num_special_tokens c) Hall) as [r ->].
  eauto.
Qed.

(** X4. On a constructed codec [decode_event] never raises, whatever the
    integer and whatever the ranges; and where every range has
    [min <= max + 1], it returns [None] exactly for the tokens below 3 and the
    tokens at or beyond [num_classes]. *)
Theorem decode_event_none_iff (types : list string) (ranges : gmap string (Z * Z))
    (c : Codec) (token : Z) :
  Codec_init types ranges = Ok c →
  (∃ r, decode_event token c = (Ok r, c)) ∧
  (Forall (λ t, ∃ mn mx, ranges !! t = Some (mn, mx) ∧ mn ≤ mx + 1) types →
   (decode_event token c = (Ok None, c) ↔ token < 3 ∨ num_classes c ≤ token)).
Proof.
  intros Hinit. split.
  - by apply (decode_event_constructed types ranges).
  - intros Hsizes. by apply (decode_event_none_cases types ranges).
Qed.

Lemma decode_event_none_iff_witness :
  (∃ r, decode_event 7 (built (Codec_init ["velocity"; "note"]
                                 (list_to_map [("velocity", (5, 3)); ("note", (0, 127))])))
        = (Ok r, built (Codec_init ["velocity"; "note"]
                          (list_to_map [("velocity", (5, 3)); ("note", (0, 127))])))) ∧
  (decode_event 516 rle_test_codec = (Ok None, rle_test_codec)
   ↔ 516 < 3 ∨ num_classes rle_test_codec ≤ 516).
Proof.
  split.
  - apply (decode_event_none_iff ["velocity"; "note"]
             (list_to_map [("velocity", (5, 3)); ("note", (0, 127))])).
    vm_compute. reflexivity.
  - apply (decode_event_none_iff rle_test_types rle_test_ranges).
    + vm_compute. reflexivity.
    + repeat (constructor; [eexists _, _; split; [vm_compute; reflexivity|lia]|]).
      constructor.
Defined.

(** X5. Where no event type is listed twice, re-encoding the event a token
    decodes to gives the token plus the [min_value] of the event's type: the
    token itself exactly when that range starts at zero. *)
Theorem decode_then_encode (c : Codec) (token : Z) (ev : Event) :
  NoDup (event_types c) →
  decode_event token c = (Ok (Some ev), c) →
  ∃ mn mx, event_ranges c !! type ev = Some (mn, mx) ∧
           encode_event ev c = (Ok (token + mn), c).
Proof.
  intros Hnodup Hdec.
  destruct (decode_event_some c token ev Hdec)
    as (Hle & pre & post & mn & mx & Htypes & Hpre & Hr & Hv & Hval).
  exists mn, mx. split; [done|].
  rewrite Htypes in Hnodup. apply NoDup_app in Hnodup as (_ & Hdisj & _).
  assert (Hnotin : type ev ∉ pre) by (intros Hin; apply (Hdisj _ Hin); left).
  unfold encode_event, mbind, codec_op_bind, attr, raise, lift, mret, codec_op_ret.
  simpl. rewrite Htypes.
  rewrite bool_decide_eq_true_2 by (apply elem_of_app; right; left).
  simpl. rewrite (encode_loop_offset _ _ pre post _ Hpre Hnotin).
  do 2 f_equal. lia.
Qed.

Lemma decode_then_encode_witness :
  ∃ mn mx, event_ranges piano_codec !! type (mkEvent "pitch" 42) = Some (mn, mx) ∧
           encode_event (mkEvent "pitch" 42) piano_codec = (Ok (24 + mn), piano_codec).
Proof.
  apply (decode_then_encode piano_codec 24 (mkEvent "pitch" 42)).
  - apply (bool_decide_unpack _). vm_compute. exact I.
  - vm_compute. reflexivity.
Defined.

(** On a constructed codec whose ranges all start at zero, a valid event is
    an event of a zero-based range. *)
Lemma valid_event_zero_based (types : list string) (ranges : gmap string (Z * Z))
    (c : Codec) (e : Event) :
  Codec_init types ranges = Ok c →
  Forall (λ t, ∃ m, ranges !! t = Some (0, m) ∧ -1 ≤ m) types →
  valid_event c e →
  (∀ t, t ∈ event_types c → ∃ m, event_ranges c !! t = Some (0, m) ∧ -1 ≤ m) ∧
  0 ≤ num_special_tokens c ∧ type e ∈ event_types c ∧
  ∃ mx, event_ranges c !! type e = Some (0, mx) ∧ 0 ≤ value e ≤ mx.
Proof.
  intros Hinit Hzero (Hin & mn & mx & Hr & Hv).
  destruct (Codec_init_result _ ranges c Hinit) as (Htypes & Hranges & Hns & _).
  rewrite Htypes, Hranges, Hns in *.
  split; [by apply Forall_forall|]. split; [lia|]. split; [done|].
  destruct (proj1 (Forall_forall _ _) Hzero _ Hin) as (m & Hm & _).
  assert (mn = 0 ∧ mx = m) as [-> ->] by (split; congruence).
  by exists m.
Qed.

(** X6. On a constructed codec whose ranges all have [min_value = 0] and
    [max_value >= -1] (no range of negative size), encoding a valid event and
    decoding the token gives the event back. *)
Theorem encode_then_decode_constructed (types : list string)
    (ranges : gmap string (Z * Z)) (c : Codec) (e : Event) :
  Codec_init types ranges = Ok c →
  Forall (λ t, ∃ m, ranges !! t = Some (0, m) ∧ -1 ≤ m) types →
  valid_event c e →
  encode_then_decode e c = (Ok (Some e), c).
Proof.
  intros Hinit Hzero Hvalid.
  destruct (valid_event_zero_based types ranges c e Hinit Hzero Hvalid)
    as (Hall & Hns & Hin & mx & Hr & Hv).
  destruct e as [ty v]. by apply (encode_then_decode_zero_based c ty mx v).
Qed.

Lemma encode_then_decode_constructed_witness :
  encode_then_decode (mkEvent "velocity" 16) note_velocity_codec
    = (Ok (Some (mkEvent "velocity" 16)), note_velocity_codec).
Proof.
  apply (encode_then_decode_constructed ["note"; "velocity"] note_velocity_ranges).
  - vm_compute. reflexivity.
  - repeat (constructor; [eexists; split; [vm_compute; reflexivity|lia]|]). constructor.
  - split; [apply (bool_decide_unpack _); vm_compute; exact I|].
    exists 0, 31. split; [vm_compute; reflexivity|simpl; lia].
Defined.

(** X7. On a constructed codec whose ranges all have [min_value = 0] and
    [max_value >= -1] (no range of negative size), two different valid events
    never encode to the same token. *)
Theorem encode_event_injective (types : list string) (ranges : gmap string (Z * Z))
    (c : Codec) (e1 e2 : Event) (token1 token2 : Z) :
  Codec_init types ranges = Ok c →
  Forall (λ t, ∃ m, ranges !! t = Some (0, m) ∧ -1 ≤ m) types →
  valid_event c e1 → valid_event c e2 → e1 ≠ e2 →
  encode_event e1 c = (Ok token1, c) → encode_event e2 c = (Ok token2, c) →
  token1 ≠ token2.
Proof.
  intros Hinit Hzero Hv1 Hv2 Hne Henc1 Henc2 Heq. subst token2. apply Hne.
  destruct (valid_event_zero_based types ranges c e1 Hinit Hzero Hv1)
    as (Hall & Hns & Hin1 & m1 & Hr1 & Hb1).
  destruct (valid_event_zero_based types ranges c e2 Hinit Hzero Hv2)
    as (_ & _ & Hin2 & m2 & Hr2 & Hb2).
  by apply (encode_event_injective_zero_based c e1 e2 m1 m2 token1).
Qed.

Lemma encode_event_injective_witness : (63 : Z) ≠ 147.
Proof.
  apply (encode_event_injective ["note"; "velocity"] note_velocity_ranges
           note_velocity_codec (mkEvent "note" 60) (mkEvent "velocity" 16) 63 147).
  - vm_compute. reflexivity.
  - repeat (constructor; [eexists; split; [vm_compute; reflexivity|lia]|]). constructor.
  - split; [apply (bool_decide_unpack _); vm_compute; exact I|].
    exists 0, 127. split; [vm_compute; reflexivity|simpl; lia].
  - split; [apply (bool_decide_unpack _); vm_compute; exact I|].
    exists 0, 31. split; [vm_compute; reflexivity|simpl; lia].
  - discriminate.
  - vm_compute. reflexivity.
  - vm_compute. reflexivity.
Defined.

(** X8. Construction raises [KeyError] for the first listed event type
    that has no entry in the range map. *)
Theorem Codec_init_missing_range (pre post : list string) (t : string)
    (ranges : gmap string (Z * Z)) :
  Forall (λ t', is_Some (ranges !! t')) pre → ranges !! t = None →
  Codec_init (pre ++ t :: post) ranges = Raise (KeyError t).
Proof.
  intros Hpre Hnone. unfold Codec_init.
  by rewrite (init_loop_missing ranges pre post t ∅ 0 Hpre Hnone).
Qed.

Lemma Codec_init_missing_range_witness :
  Codec_init (["note"; "velocity"] ++ "program" :: ["tie"]) note_velocity_ranges
    = Raise (KeyError "program").
Proof.
  apply Codec_init_missing_range.
  - repeat (constructor; [eexists; vm_compute; reflexivity|]). constructor.
  - vm_compute. reflexivity.
Defined.

(** X9. On a constructed codec, [event_type_range] of a registered name
    raises nothing and returns the [(min, max)] pair of values given at
    construction, which is also what [token_ranges] holds for that name; it is
    not the span of token ids the type occupies. *)
Theorem event_type_range_constructed (types : list string)
    (ranges : gmap string (Z * Z)) (c : Codec) (name : string) :
  Codec_init types ranges = Ok c → name ∈ types →
  ∃ r, ranges !! name = Some r ∧
       event_type_range name c = (Ok r, c) ∧
       token_ranges c !! name = Some r.
Proof.
  intros Hinit Hin.
  destruct (Codec_init_result _ ranges c Hinit) as (Htypes & Hranges & _ & Hall & _ & Htr).
  destruct (proj1 (Forall_forall _ _) Hall _ Hin) as [r Hr].
  exists r. split; [done|]. split.
  - apply event_type_range_registered; by rewrite ?Htypes, ?Hranges.
  - rewrite Htr. by rewrite decide_True.
Qed.

Lemma event_type_range_constructed_witness :
  ∃ r, note_velocity_ranges !! "velocity" = Some r ∧
       event_type_range "velocity" note_velocity_codec = (Ok r, note_velocity_codec) ∧
       token_ranges note_velocity_codec !! "velocity" = Some r.
Proof.
  apply (event_type_range_constructed ["note"; "velocity"]).
  - vm_compute. reflexivity.
  - apply (bool_decide_unpack _). vm_compute. exact I.
Defined.

(** ** The vocabulary builder *)

Lemma build_codec_unfold (cfg : VocabularyConfig) :
  build_codec cfg
  = Codec_init
      (["note"] ++ (if onsets_only cfg then [] else ["velocity"; "program"])
                ++ (if include_ties cfg then ["tie"] else []))
      (list_to_map [ ("note", (0, 127)); ("velocity", (0, num_velocity_bins cfg - 1));
                     ("program", (0, 127)); ("tie", (0, 0)) ]).
Proof. destruct cfg as [bins [] []]; reflexivity. Qed.

Lemma build_codec_lookups (bins : Z) (ranges : gmap string (Z * Z)) :
  ranges = list_to_map [ ("note", (0, 127)); ("velocity", (0, bins - 1));
                         ("program", (0, 127)); ("tie", (0, 0)) ] →
  ranges !! "note" = Some (0, 127) ∧ ranges !! "velocity" = Some (0, bins - 1) ∧
  ranges !! "program" = Some (0, 127) ∧ ranges !! "tie" = Some (0, 0).
Proof. intros ->. repeat split. Qed.

(** X10. For every configuration [build_codec] succeeds, lists [note],
    then [velocity] and [program] unless [onsets_only], then [tie] if
    [include_ties], and the vocabulary has
    [3 + 128 + (num_velocity_bins + 128 unless onsets_only) + (1 if include_ties)]
    classes: 292 for the default configuration. *)
Theorem build_codec_num_classes (cfg : VocabularyConfig) :
  ∃ c, build_codec cfg = Ok c ∧
       event_types c
         = ["note"] ++ (if onsets_only cfg then [] else ["velocity"; "program"])
                    ++ (if include_ties cfg then ["tie"] else []) ∧
       num_classes c
         = 3 + 128 + (if onsets_only cfg then 0 else num_velocity_bins cfg + 128)
             + (if include_ties cfg then 1 else 0).
Proof.
  rewrite build_codec_unfold.
  remember (list_to_map _ : gmap string (Z * Z)) as ranges eqn:Hranges.
  destruct (build_codec_lookups _ ranges Hranges) as (Hn & Hv & Hp & Ht).
  clear Hranges.
  set (types := ["note"] ++ _ ++ _).
  assert (Hall : ∀ t, t ∈ types → is_Some (ranges !! t)).
  { intros t Hin. unfold types in Hin.
    destruct (onsets_only cfg), (include_ties cfg); simpl in Hin;
      repeat (apply elem_of_cons in Hin as [->|Hin]; [by eexists|]);
      by apply elem_of_nil in Hin. }
  destruct (proj1 (Codec_init_succeeds_iff types ranges) Hall) as [c Hc].
  exists c. split; [done|].
  destruct (Codec_init_result types ranges c Hc) as (Htypes & _ & _ & _ & Hnum & _).
  split; [done|]. rewrite Hnum. unfold types.
  destruct (onsets_only cfg), (include_ties cfg); simpl;
    rewrite ?(range_size_lookup _ _ _ _ Hn), ?(range_size_lookup _ _ _ _ Hv),
            ?(range_size_lookup _ _ _ _ Hp), ?(range_size_lookup _ _ _ _ Ht); lia.
Qed.

(** X11. For a configuration with [num_velocity_bins >= 0], on the codec
    that [build_codec] returns, encoding a valid event and decoding the token
    gives the event back. *)
Theorem build_codec_round_trip (cfg : VocabularyConfig) (c : Codec) (e : Event) :
  0 ≤ num_velocity_bins cfg →
  build_codec cfg = Ok c →
  valid_event c e →
  encode_then_decode e c = (Ok (Some e), c).
Proof.
  intros Hbins Hbuild Hvalid. rewrite build_codec_unfold in Hbuild.
  remember (list_to_map _ : gmap string (Z * Z)) as ranges eqn:Hranges.
  destruct (build_codec_lookups _ ranges Hranges) as (Hn & Hv & Hp & Ht).
  clear Hranges.
  assert (Hzero : Forall (λ t, ∃ m, ranges !! t = Some (0, m) ∧ -1 ≤ m)
            (["note"] ++ (if onsets_only cfg then [] else ["velocity"; "program"])
                      ++ (if include_ties cfg then ["tie"] else []))).
  { destruct (onsets_only cfg), (include_ties cfg); simpl;
      repeat (constructor; [eexists; split; [eassumption|lia]|]); constructor. }
  destruct (valid_event_zero_based _ ranges c e Hbuild Hzero Hvalid)
    as (Hall & Hns & Hin & mx & Hr & Hb).
  destruct e as [ty v]. by apply (encode_then_decode_zero_based c ty mx v).
Qed.

Lemma build_codec_round_trip_witness :
  encode_then_decode (mkEvent "velocity" 31) (built (build_codec default_config))
    = (Ok (Some (mkEvent "velocity" 31)), built (build_codec default_config)).
Proof.
  apply (build_codec_round_trip default_config).
  - vm_compute. discriminate.
  - vm_compute. reflexivity.
  - split; [apply (bool_decide_unpack _); vm_compute; exact I|].
    exists 0, 31. split; [vm_compute; reflexivity|simpl; lia].
Defined.

(** ** Sequences of events *)

(** On a constructed codec, [encode_event] of a registered type raises
    nothing. *)
Lemma encode_event_registered (types : list string) (ranges : gmap string (Z * Z))
    (c : Codec) (e : Event) :
  Codec_init types ranges = Ok c → type e ∈ types →
  ∃ token, encode_event e c = (Ok token, c).
Proof.
  intros Hinit Hin. destruct e as [ty v]. simpl in Hin.
  destruct (list_elem_of_split_l _ _ Hin) as (pre & post & Hsplit & Hnotin).
  destruct (Codec_init_result _ ranges c Hinit) as (Htypes & Hranges & Hns & Hall & _).
  rewrite Hsplit in Hall. apply Forall_app in Hall as [Hpre _].
  unfold encode_event, mbind, codec_op_bind, attr, raise, lift, mret, codec_op_ret.
  simpl. rewrite Htypes, Hsplit.
  rewrite bool_decide_eq_true_2 by (apply elem_of_app; right; left).
  simpl. rewrite Hranges.
  rewrite (encode_loop_offset ranges ty pre post _ Hpre Hnotin). eauto.
Qed.

(** The encoding loop appends one token per event. *)
Lemma encode_events_loop_ok (c : Codec) (events : list Event) (toks tokens : list Z) :
  Forall2 (λ e token, encode_event e c = (Ok token, c)) events toks →
  encode_events_loop events tokens c = (Ok (tokens ++ toks), c).
Proof.
  intros Hall. revert tokens.
  induction Hall as [|e token events toks He _ IH]; intros tokens; simpl.
  - unfold mret, codec_op_ret. by rewrite app_nil_r.
  - unfold mbind, codec_op_bind. rewrite He, IH. by rewrite <- app_assoc.
Qed.

(** The encoding loop stops at the first event that [encode_event] rejects. *)
Lemma encode_events_loop_raise (c : Codec) (pre post : list Event) (e : Event)
    (toks tokens : list Z) (x : exn) :
  Forall2 (λ e token, encode_event e c = (Ok token, c)) pre toks →
  encode_event e c = (Raise x, c) →
  encode_events_loop (pre ++ e :: post) tokens c = (Raise x, c).
Proof.
  intros Hall He. revert tokens.
  induction Hall as [|e0 token pre toks He0 _ IH]; intros tokens; simpl.
  - unfold mbind, codec_op_bind. by rewrite He.
  - unfold mbind, codec_op_bind. rewrite He0. apply IH.
Qed.

Lemma encode_events_registered (types : list string) (ranges : gmap string (Z * Z))
    (c : Codec) (events : list Event) :
  Codec_init types ranges = Ok c →
  Forall (λ e, type e ∈ types) events →
  ∃ toks, Forall2 (λ e token, encode_event e c = (Ok token, c)) events toks.
Proof.
  intros Hinit. induction 1 as [|e events He _ [toks IH]].
  - exists []. constructor.
  - destruct (encode_event_registered types ranges c e Hinit He) as [token Htoken].
    exists (token :: toks). by constructor.
Qed.

Lemma to_int32_tensor_id (values : list Z) :
  Forall is_int32 values → to_int32_tensor values = values.
Proof.
  unfold to_int32_tensor. induction 1 as [|v values Hv _ IH]; simpl; [done|].
  by rewrite (wrap32_id v Hv), IH.
Qed.

(** X13. On a constructed codec, [encode_events] raises the
    unknown-event-type error of the first event whose type is not registered,
    whatever follows it, and returns no tokens for the events before it. *)
Theorem encode_events_first_unregistered (types : list string)
    (ranges : gmap string (Z * Z)) (c : Codec) (pre post : list Event) (e : Event) :
  Codec_init types ranges = Ok c →
  Forall (λ e', type e' ∈ types) pre → type e ∉ types →
  encode_events (pre ++ e :: post) c = (Raise (UnknownEventType (type e)), c).
Proof.
  intros Hinit Hpre Hnot.
  destruct (encode_events_registered types ranges c pre Hinit Hpre) as [toks Htoks].
  destruct (Codec_init_result _ ranges c Hinit) as (Htypes & _).
  unfold encode_events, mbind, codec_op_bind.
  rewrite (encode_events_loop_raise c pre post e toks [] (UnknownEventType (type e)) Htoks);
    [done|].
  apply encode_event_unregistered. by rewrite Htypes.
Qed.

Lemma encode_events_first_unregistered_witness :
  encode_events ([mkEvent "note" 60] ++ mkEvent "shift" 1 :: [mkEvent "velocity" 16])
                note_velocity_codec
    = (Raise (UnknownEventType (type (mkEvent "shift" 1))), note_velocity_codec).
Proof.
  apply (encode_events_first_unregistered ["note"; "velocity"] note_velocity_ranges).
  - vm_compute. reflexivity.
  - repeat (constructor; [apply (bool_decide_unpack _); vm_compute; exact I|]).
    constructor.
  - apply (bool_decide_unpack _). vm_compute. exact I.
Defined.

Lemma zero_based_nonneg (ranges : gmap string (Z * Z)) (types : list string) :
  Forall (λ t, ∃ m, ranges !! t = Some (0, m) ∧ -1 ≤ m) types →
  Forall (λ t, ∃ mn mx, ranges !! t = Some (mn, mx) ∧ mn ≤ mx + 1) types.
Proof.
  intros Hzero. eapply Forall_impl; [exact Hzero|].
  intros t (m & Hm & Hle). exists 0, m. split; [done|lia].
Qed.

Lemma zero_based_sizes (ranges : gmap string (Z * Z)) (types : list string) (k : Z) :
  Forall (λ t, ∃ m, ranges !! t = Some (0, m) ∧ -1 ≤ m) types →
  total_size ranges types ≤ k →
  Forall (λ t, ∃ m, ranges !! t = Some (0, m) ∧ -1 ≤ m ∧ m + 1 ≤ k) types.
Proof.
  intros Hzero. revert k.
  induction Hzero as [|t types (m & Hm & Hle) Hrest IH]; intros k Hk; [constructor|].
  simpl in Hk. rewrite (range_size_lookup ranges t 0 m Hm) in Hk.
  pose proof (total_size_nonneg ranges types (zero_based_nonneg ranges types Hrest)) as Hnn.
  constructor.
  - exists m. repeat split; try done; lia.
  - apply IH. lia.
Qed.

Section int32_vocabulary.

Variables (types : list string) (ranges : gmap string (Z * Z)) (c : Codec).
Hypothesis constructed : Codec_init types ranges = Ok c.

(** The zero-based ranges of a vocabulary that fits int32 fit int32. *)
Lemma zero_based_within_int32 :
  Forall (λ t, ∃ m, ranges !! t = Some (0, m) ∧ -1 ≤ m) types →
  num_classes c ≤ int32_max + 1 →
  ranges_within_int32 ranges types.
Proof.
  intros Hzero Hnum.
  destruct (Codec_init_result _ ranges c constructed) as (_ & _ & _ & _ & Hclasses & _).
  rewrite Hclasses in Hnum. unfold ranges_within_int32.
  eapply Forall_impl; [apply (zero_based_sizes ranges types (int32_max - 2) Hzero); lia|].
  intros t (m & Hm & Hle & Hk). exists 0, m.
  unfold is_int32, int32_min, int32_max in *. repeat split; try done; lia.
Qed.

(** Where the ranges fit int32, [decode_event] computes the same on an int32
    scalar as on a Python [int]: no difference wraps and nothing overflows. *)
Lemma decode_loop_np_agrees (token : Z) (types' : list string) (cur : Z) :
  ranges_within_int32 ranges types' → is_int32 token → 0 ≤ cur ≤ token →
  decode_loop_np ranges token types' cur = decode_loop ranges token types' cur.
Proof.
  intros Hfit Htoken. revert cur.
  induction Hfit as [|t types'' (mn & mx & Hr & Hle & Hmn & Hmx) _ IH];
    intros cur Hcur; simpl; [done|].
  rewrite Hr. destruct (token <? cur + (mx - mn + 1)) eqn:Hlt.
  - apply Z.ltb_lt in Hlt. unfold mbind, result_mbind.
    rewrite np_sub_int32 by (unfold is_int32, int32_min, int32_max in *; lia).
    cbn [result_bind]. rewrite np_add_int32 by done. cbn [result_bind].
    rewrite (wrap32_id (token - cur))
      by (unfold is_int32, int32_min, int32_max in *; lia).
    rewrite wrap32_id by (unfold is_int32, int32_min, int32_max in *; lia). done.
  - apply Z.ltb_ge in Hlt. apply IH. lia.
Qed.

Lemma decode_event_np_agrees (token : Z) :
  ranges_within_int32 ranges types → is_int32 token →
  decode_event_np token c = decode_event token c.
Proof.
  intros Hfit Htoken.
  destruct (Codec_init_result _ ranges c constructed) as (Htypes & Hranges & Hns & _).
  unfold decode_event_np, decode_event.
  unfold mbind, codec_op_bind, attr, raise, lift, mret, codec_op_ret. simpl.
  destruct (token <? num_special_tokens c) eqn:Hlt; [done|].
  apply Z.ltb_ge in Hlt. rewrite Htypes, Hranges, Hns in *.
  rewrite decode_loop_np_agrees; [done|done|done|lia].
Qed.

(** The decoding loop appends the events of the tokens that decode to one. *)
Lemma decode_events_loop_spec (tokens : list Z) (events : list Event) :
  ranges_within_int32 ranges types → Forall is_int32 tokens →
  decode_events_loop tokens events c = (Ok (events ++ omap (decoded c) tokens), c).
Proof.
  intros Hfit Htokens. revert events.
  induction Htokens as [|token tokens Htoken _ IH]; intros events; simpl.
  - unfold mret, codec_op_ret. by rewrite app_nil_r.
  - destruct (decode_event_constructed types ranges c token constructed) as [r Hr].
    unfold mbind, codec_op_bind. rewrite (decode_event_np_agrees token Hfit Htoken), Hr.
    unfold decoded at 1. rewrite Hr. simpl.
    destruct r as [ev|]; rewrite IH; [by rewrite <- app_assoc|done].
Qed.

Lemma decode_events_constructed {T : Type} (tokens : list Z)
    (cfg : VocabularyConfig) (frame_times : option T) :
  ranges_within_int32 ranges types → Forall is_int32 tokens →
  decode_events tokens cfg frame_times None c = (Ok (omap (decoded c) tokens), c) ∧
  ∀ n, decode_events tokens cfg frame_times (Some n) c
       = (Ok (omap (decoded c) (slice_to n tokens)), c).
Proof.
  intros Hfit Htokens. unfold decode_events. split; [|intros n].
  - by rewrite decode_events_loop_spec.
  - rewrite decode_events_loop_spec; [done|done|].
    unfold slice_to. destruct (0 <=? n); by apply Forall_take.
Qed.

(** On a zero-based vocabulary, the token of a valid event lies in
    [3 .. num_classes - 1] and decodes to the event. *)
Lemma valid_event_token (e : Event) :
  Forall (λ t, ∃ m, ranges !! t = Some (0, m) ∧ -1 ≤ m) types →
  valid_event c e →
  ∃ token, encode_event e c = (Ok token, c) ∧
           decoded c token = Some e ∧ 3 ≤ token < num_classes c.
Proof.
  intros Hzero Hvalid.
  destruct (valid_event_zero_based types ranges c e constructed Hzero Hvalid)
    as (Hall & Hns & Hin & mx & Hr & Hv).
  pose proof (encode_then_decode_zero_based c (type e) mx (value e)
                Hall Hns Hin Hr Hv) as Hrt.
  destruct e as [ty v]. simpl in Hrt.
  unfold encode_then_decode, mbind, codec_op_bind in Hrt.
  pose proof (encode_event_pure c (mkEvent ty v)) as Hpure.
  destruct (encode_event (mkEvent ty v) c) as [[token|x] c'] eqn:Htoken;
    simpl in Hpure; subst c'; [|discriminate].
  exists token. split; [done|]. split; [unfold decoded; by rewrite Hrt|].
  pose proof (zero_based_nonneg ranges types Hzero) as Hsizes.
  destruct (decode_event_none_cases types ranges c token constructed Hsizes)
    as [_ Hnone].
  destruct (decide (3 ≤ token ∧ token < num_classes c)) as [|Hout]; [lia|].
  assert (Hcase : token < 3 ∨ num_classes c ≤ token) by lia.
  apply Hnone in Hcase. congruence.
Qed.

Lemma valid_events_tokens (events : list Event) :
  Forall (λ t, ∃ m, ranges !! t = Some (0, m) ∧ -1 ≤ m) types →
  Forall (valid_event c) events →
  ∃ toks, Forall2 (λ e token, encode_event e c = (Ok token, c)) events toks ∧
          omap (decoded c) toks = events ∧
          Forall (λ token, 3 ≤ token < num_classes c) toks.
Proof.
  intros Hzero. induction 1 as [|e events He _ (toks & Henc & Hdec & Hrange)].
  - exists []. repeat split; constructor.
  - destruct (valid_event_token e Hzero He) as (token & Htoken & Hd & Hb).
    exists (token :: toks). split; [by constructor|]. split; [|by constructor].
    rewrite <- Hdec. simpl. by rewrite Hd.
Qed.

End int32_vocabulary.

Lemma decoded_some (c : Codec) (token : Z) (ev : Event) :
  decoded c token = Some ev → decode_event token c = (Ok (Some ev), c).
Proof.
  unfold decoded. pose proof (decode_event_pure c token) as Hpure.
  destruct (decode_event token c) as [[r|e] c']; simpl in *; [|done].
  by intros ->; subst.
Qed.

Lemma omap_decoded_cons (c : Codec) (token : Z) (tokens : list Z) :
  omap (decoded c) (token :: tokens)
  = match decoded c token with
    | Some ev => ev :: omap (decoded c) tokens
    | None => omap (decoded c) tokens
    end.
Proof. reflexivity. Qed.

Lemma vocabulary_tokens_int32 (n : Z) (toks : list Z) :
  n ≤ int32_max + 1 → Forall (λ token, 3 ≤ token < n) toks → Forall is_int32 toks.
Proof.
  intros Hn Hall. eapply Forall_impl; [exact Hall|]. intros token Hb.
  unfold is_int32, int32_min, int32_max in *. simpl in Hb. lia.
Qed.

(** X12. On a constructed codec whose ranges all have [min_value = 0] and
    [max_value >= -1] and whose [num_classes] is at most 2^31, [encode_events]
    of valid events raises nothing and returns one token per event, in order,
    each the [encode_event] of its event and each within
    [3 .. num_classes - 1]. *)
Theorem encode_events_valid (types : list string)
    (ranges : gmap string (Z * Z)) (c : Codec) (events : list Event) :
  Codec_init types ranges = Ok c →
  Forall (λ t, ∃ m, ranges !! t = Some (0, m) ∧ -1 ≤ m) types →
  num_classes c ≤ int32_max + 1 →
  Forall (valid_event c) events →
  ∃ toks, encode_events events c = (Ok toks, c) ∧
          length toks = length events ∧
          Forall2 (λ e token, encode_event e c = (Ok token, c)) events toks ∧
          Forall (λ token, 3 ≤ token < num_classes c) toks.
Proof.
  intros Hinit Hzero Hnum Hvalid.
  destruct (valid_events_tokens types ranges c Hinit events Hzero Hvalid)
    as (toks & Henc & _ & Hrange).
  exists toks. split; [|split; [by rewrite (Forall2_length _ _ _ Henc)|done]].
  unfold encode_events, mbind, codec_op_bind.
  rewrite (encode_events_loop_ok c events toks [] Henc). unfold mret, codec_op_ret.
  simpl. by rewrite (to_int32_tensor_id toks (vocabulary_tokens_int32 _ _ Hnum Hrange)).
Qed.

Lemma encode_events_valid_witness :
  ∃ toks,
    encode_events [mkEvent "note" 60; mkEvent "velocity" 16] note_velocity_codec
      = (Ok toks, note_velocity_codec) ∧
    length toks = length [mkEvent "note" 60; mkEvent "velocity" 16] ∧
    Forall2 (λ e token, encode_event e note_velocity_codec = (Ok token, note_velocity_codec))
            [mkEvent "note" 60; mkEvent "velocity" 16] toks ∧
    Forall (λ token, 3 ≤ token < num_classes note_velocity_codec) toks.
Proof.
  apply (encode_events_valid ["note"; "velocity"] note_velocity_ranges).
  - vm_compute. reflexivity.
  - repeat (constructor; [eexists; split; [vm_compute; reflexivity|lia]|]). constructor.
  - vm_compute. discriminate.
  - repeat (constructor;
      [split; [apply (bool_decide_unpack _); vm_compute; exact I|];
       eexists _, _; split; [vm_compute; reflexivity|simpl; lia]|]).
    constructor.
Defined.

(** X14. On a constructed codec whose ranges all have [min_value = 0] and
    [max_value >= -1] and whose [num_classes] is at most 2^31, [decode_events]
    (without [sequence_length]) undoes [encode_events] on valid events,
    whatever [vocab_config] and [frame_times] are. *)
Theorem decode_events_encode_events {T : Type} (types : list string)
    (ranges : gmap string (Z * Z)) (c : Codec) (events : list Event)
    (cfg : VocabularyConfig) (frame_times : option T) :
  Codec_init types ranges = Ok c →
  Forall (λ t, ∃ m, ranges !! t = Some (0, m) ∧ -1 ≤ m) types →
  num_classes c ≤ int32_max + 1 →
  Forall (valid_event c) events →
  ∃ toks, encode_events events c = (Ok toks, c) ∧
          decode_events toks cfg frame_times None c = (Ok events, c).
Proof.
  intros Hinit Hzero Hnum Hvalid.
  destruct (valid_events_tokens types ranges c Hinit events Hzero Hvalid)
    as (toks & Henc & Hdec & Hrange).
  pose proof (vocabulary_tokens_int32 _ _ Hnum Hrange) as Hint.
  pose proof (zero_based_within_int32 types ranges c Hinit Hzero Hnum) as Hfit.
  exists toks. split.
  - unfold encode_events, mbind, codec_op_bind.
    rewrite (encode_events_loop_ok c events toks [] Henc). unfold mret, codec_op_ret.
    simpl. by rewrite (to_int32_tensor_id toks Hint).
  - destruct (decode_events_constructed types ranges c Hinit toks cfg frame_times
                Hfit Hint) as [-> _]. by rewrite Hdec.
Qed.

Lemma decode_events_encode_events_witness :
  ∃ toks,
    encode_events [mkEvent "note" 60; mkEvent "velocity" 16] note_velocity_codec
      = (Ok toks, note_velocity_codec) ∧
    decode_events toks default_config (None : option (list Z)) None note_velocity_codec
      = (Ok [mkEvent "note" 60; mkEvent "velocity" 16], note_velocity_codec).
Proof.
  apply (decode_events_encode_events ["note"; "velocity"] note_velocity_ranges).
  - vm_compute. reflexivity.
  - repeat (constructor; [eexists; split; [vm_compute; reflexivity|lia]|]). constructor.
  - vm_compute. discriminate.
  - repeat (constructor;
      [split; [apply (bool_decide_unpack _); vm_compute; exact I|];
       eexists _, _; split; [vm_compute; reflexivity|simpl; lia]|]).
    constructor.
Defined.

(** X15. On a constructed codec whose ranges have non-negative size and
    bounds within int32, [decode_events] of int32 tokens never raises; every
    event it returns is a valid event of the codec; and it returns exactly one
    event per token in [3 .. num_classes - 1], silently skipping the special
    tokens and the tokens beyond the vocabulary. *)
Theorem decode_events_skips_invalid {T : Type} (types : list string)
    (ranges : gmap string (Z * Z)) (c : Codec) (tokens : list Z)
    (cfg : VocabularyConfig) (frame_times : option T) :
  Codec_init types ranges = Ok c →
  ranges_within_int32 ranges types →
  Forall is_int32 tokens →
  ∃ events, decode_events tokens cfg frame_times None c = (Ok events, c) ∧
            Forall (valid_event c) events ∧
            length events
              = length (filter (λ t, 3 ≤ t ∧ t < num_classes c) tokens).
Proof.
  intros Hinit Hfit Hint. exists (omap (decoded c) tokens).
  destruct (decode_events_constructed types ranges c Hinit tokens cfg frame_times
              Hfit Hint) as [-> _].
  assert (Hsizes : Forall (λ t, ∃ mn mx, ranges !! t = Some (mn, mx) ∧ mn ≤ mx + 1) types).
  { eapply Forall_impl; [exact Hfit|]. intros t (mn & mx & Hr & Hle & _). eauto. }
  split; [done|]. split.
  - apply Forall_forall. intros ev Hev.
    apply list_elem_of_omap in Hev as (token & _ & Hdec).
    apply decoded_some in Hdec.
    destruct (decode_event_some c token ev Hdec)
      as (_ & pre & post & mn & mx & Htypes & _ & Hr & Hv & _).
    split; [rewrite Htypes; apply elem_of_app; right; left|by exists mn, mx].
  - clear Hint. induction tokens as [|token tokens IH]; [done|].
    destruct (decode_event_none_cases types ranges c token Hinit Hsizes)
      as [[r Hr] Hnone].
    assert (Hd : decoded c token = r) by (unfold decoded; by rewrite Hr).
    rewrite omap_decoded_cons, Hd.
    destruct r as [ev|].
    + rewrite filter_cons_True; [cbn [length]; by f_equal|].
      destruct (decide (3 ≤ token ∧ token < num_classes c)) as [|Hout]; [done|].
      assert (Hcase : token < 3 ∨ num_classes c ≤ token) by lia.
      apply Hnone in Hcase. congruence.
    + rewrite filter_cons_False; [done|].
      destruct (proj1 Hnone Hr); lia.
Qed.

Lemma decode_events_skips_invalid_witness :
  ∃ events,
    decode_events [0; 63; 2; 147; 999; -4] default_config (None : option (list Z)) None
                  note_velocity_codec = (Ok events, note_velocity_codec) ∧
    Forall (valid_event note_velocity_codec) events ∧
    length events
      = length (filter (λ t, 3 ≤ t ∧ t < num_classes note_velocity_codec)
                       [0; 63; 2; 147; 999; -4]).
Proof.
  apply (decode_events_skips_invalid ["note"; "velocity"] note_velocity_ranges).
  - vm_compute. reflexivity.
  - repeat (constructor;
      [eexists _, _; split; [vm_compute; reflexivity|];
       split; [lia|]; split; vm_compute; split; discriminate|]).
    constructor.
  - repeat constructor; vm_compute; discriminate.
Defined.

(** X16. [sequence_length] only truncates: on a constructed codec whose
    ranges have non-negative size and bounds within int32, the events
    [decode_events] returns for int32 tokens with a [sequence_length],
    negative or not, are a prefix of the events it returns without one, and
    all of them when [sequence_length] is at least the number of tokens. *)
Theorem decode_events_sequence_length {T : Type} (types : list string)
    (ranges : gmap string (Z * Z)) (c : Codec) (tokens : list Z)
    (cfg : VocabularyConfig) (frame_times : option T) (n : Z) :
  Codec_init types ranges = Ok c →
  ranges_within_int32 ranges types →
  Forall is_int32 tokens →
  ∃ every part,
    decode_events tokens cfg frame_times None c = (Ok every, c) ∧
    decode_events tokens cfg frame_times (Some n) c = (Ok part, c) ∧
    part `prefix_of` every ∧
    (Z.of_nat (length tokens) ≤ n → part = every).
Proof.
  intros Hinit Hfit Hint.
  destruct (decode_events_constructed types ranges c Hinit tokens cfg frame_times
              Hfit Hint) as [Hnone Hsome].
  exists (omap (decoded c) tokens), (omap (decoded c) (slice_to n tokens)).
  split; [done|]. split; [done|].
  assert (Htake : ∃ k, slice_to n tokens = take k tokens).
  { unfold slice_to. destruct (0 <=? n); eauto. }
  destruct Htake as [k Hk]. split.
  - rewrite Hk. rewrite <- (take_drop k tokens) at 2. rewrite omap_app.
    by eexists.
  - intros Hlen. unfold slice_to. rewrite (proj2 (Z.leb_le 0 n)) by lia.
    by rewrite take_ge by lia.
Qed.

Lemma decode_events_sequence_length_witness :
  (∃ every part,
    decode_events [63; 0; 147; 2] default_config (None : option (list Z)) None
                  note_velocity_codec = (Ok every, note_velocity_codec) ∧
    decode_events [63; 0; 147; 2] default_config (None : option (list Z)) (Some (-2))
                  note_velocity_codec = (Ok part, note_velocity_codec) ∧
    part `prefix_of` every ∧
    (Z.of_nat (length [63; 0; 147; 2]) ≤ -2 → part = every)) ∧
  (∃ every part,
    decode_events [63; 0; 147; 2] default_config (None : option (list Z)) None
                  note_velocity_codec = (Ok every, note_velocity_codec) ∧
    decode_events [63; 0; 147; 2] default_config (None : option (list Z)) (Some 9)
                  note_velocity_codec = (Ok part, note_velocity_codec) ∧
    part `prefix_of` every ∧
    (Z.of_nat (length [63; 0; 147; 2]) ≤ 9 → part = every)).
Proof.
  assert (Hfit : ranges_within_int32 note_velocity_ranges ["note"; "velocity"]).
  { repeat (constructor;
      [eexists _, _; split; [vm_compute; reflexivity|];
       split; [lia|]; split; vm_compute; split; discriminate|]).
    constructor. }
  assert (Hint : Forall is_int32 [63; 0; 147; 2])
    by (repeat constructor; vm_compute; discriminate).
  split.
  - apply (decode_events_sequence_length ["note"; "velocity"] note_velocity_ranges);
      [vm_compute; reflexivity|exact Hfit|exact Hint].
  - apply (decode_events_sequence_length ["note"; "velocity"] note_velocity_ranges);
      [vm_compute; reflexivity|exact Hfit|exact Hint].
Defined.

(** ** How the run-length functions compose *)

Section rle_composition.

Variables lo hi : Z.

Local Abbreviation in_range := (in_shift_range lo hi).
Local Abbreviation dec := (λ l : list Z, concat (map (expand lo hi) l)).

Lemma head_after_run (l : list Z) (u : Z) :
  head (drop (run_len lo hi l) l) = Some u → in_range u = false.
Proof.
  induction l as [|t rest IH]; simpl; [done|].
  destruct (in_range t) eqn:Ht; simpl; [done|]. by intros [= <-].
Qed.

Lemma run_len_app_stop (l1 l2 : list Z) :
  (∀ u, head l2 = Some u → in_range u = false) →
  run_len lo hi (l1 ++ l2) = run_len lo hi l1.
Proof.
  intros Hstop. induction l1 as [|t rest IH]; simpl.
  - by apply run_len_stop.
  - destruct (in_range t); [by rewrite IH|done].
Qed.

Lemma rle_head_stop (l : list Z) :
  (∀ u, head l = Some u → in_range u = false) →
  ∀ u, head (rle lo hi l) = Some u → in_range u = false.
Proof.
  destruct l as [|t rest]; [done|]. intros Hstop u.
  rewrite (rle_cons_other lo hi t rest (Hstop t eq_refl)). intros [= <-].
  by apply Hstop.
Qed.

(** The encoder never lengthens a sequence, leaves no two neighbours in the
    shift range, and returns int32 values for int32 values. *)
Lemma rle_shape (n : nat) (l : list Z) :
  (length l ≤ n)%nat → Forall is_int32 l →
  (length (rle lo hi l) ≤ length l)%nat ∧ no_adjacent_shifts lo hi (rle lo hi l) ∧
  Forall is_int32 (rle lo hi l).
Proof.
  revert l. induction n as [|n IH]; intros l Hlen Hint.
  - destruct l; [done|simpl in Hlen; lia].
  - destruct l as [|t rest]; [done|]. simpl in Hlen.
    inversion Hint as [|? ? Ht32 Hrest32]; subst.
    destruct (in_range t) eqn:Ht.
    + rewrite (rle_cons_shift lo hi t rest Ht).
      destruct (IH (drop (run_len lo hi rest) rest)) as (IHlen & IHadj & IHint).
      { rewrite length_drop. lia. }
      { by apply Forall_drop. }
      rewrite length_drop in IHlen. simpl. split; [lia|]. split.
      * split; [|done]. intros _. apply rle_head_stop. apply head_after_run.
      * constructor; [|done]. unfold run_token. apply wrap32_range.
    + rewrite (rle_cons_other lo hi t rest Ht).
      destruct (IH rest) as (IHlen & IHadj & IHint); [lia|done|]. simpl.
      split; [lia|]. split; [|by constructor].
      split; [|done]. intros Ht'. congruence.
Qed.

(** An int32 sequence without two neighbours in the shift range is encoded
    to itself. *)
Lemma rle_fixed (l : list Z) :
  Forall is_int32 l → no_adjacent_shifts lo hi l → rle lo hi l = l.
Proof.
  induction 1 as [|t rest Ht32 _ IH]; [done|]. intros [Hhead Hrest].
  destruct (in_range t) eqn:Ht.
  - rewrite (rle_cons_shift lo hi t rest Ht).
    rewrite (run_len_stop lo hi rest (Hhead eq_refl)), drop_0.
    rewrite IH by done. by rewrite (run_token_one t Ht32).
  - rewrite (rle_cons_other lo hi t rest Ht). by rewrite IH.
Qed.

(** Encoding splits at a point where no run is cut. *)
Lemma rle_app_stop (n : nat) (l1 l2 : list Z) :
  (length l1 ≤ n)%nat →
  (∀ u, head l2 = Some u → in_range u = false) →
  rle lo hi (l1 ++ l2) = rle lo hi l1 ++ rle lo hi l2.
Proof.
  intros Hlen Hstop. revert l1 Hlen. induction n as [|n IH]; intros l1 Hlen.
  - destruct l1; [done|simpl in Hlen; lia].
  - destruct l1 as [|t rest]; [done|]. simpl in Hlen. simpl app.
    destruct (in_range t) eqn:Ht.
    + rewrite !(rle_cons_shift lo hi t _ Ht).
      rewrite (run_len_app_stop rest l2 Hstop).
      rewrite drop_app_le by apply run_len_le.
      rewrite IH by (rewrite length_drop; lia). done.
    + rewrite !(rle_cons_other lo hi t _ Ht). rewrite IH by lia. done.
Qed.

Lemma dec_head_stop (l : list Z) :
  (∀ u, head l = Some u → in_range u = false) →
  ∀ u, head (dec l) = Some u → in_range u = false.
Proof.
  destruct l as [|t rest]; [done|]. intros Hstop u. simpl.
  unfold expand at 1. rewrite (Hstop t eq_refl). simpl. intros [= <-].
  by apply Hstop.
Qed.

(** Where the shift range lies inside int32 and has at most 2^31 - 1 values,
    the count of a shift token does not wrap. *)
Lemma shift_count_exact (t : Z) :
  is_int32 lo → is_int32 hi → hi - lo + 1 ≤ int32_max → in_range t = true →
  shift_count lo t = t - lo + 1 ∧ 1 ≤ t - lo + 1 ∧ is_int32 t.
Proof.
  intros Hlo Hhi Hspan Ht. unfold in_shift_range in Ht.
  apply andb_true_iff in Ht as [H1 H2]. apply Z.leb_le in H1, H2.
  rewrite shift_count_wrap.
  unfold is_int32, int32_min, int32_max in *.
  split; [apply wrap32_id; unfold is_int32, int32_min, int32_max; lia|lia].
Qed.

(** There, what the decoder returns is canonical and no shorter than its
    input. *)
Lemma dec_shape (l : list Z) :
  is_int32 lo → is_int32 hi → hi - lo + 1 ≤ int32_max →
  canonical lo hi (dec l) ∧ (length l ≤ length (dec l))%nat.
Proof.
  intros Hlo Hhi Hspan.
  unfold canonical. induction l as [|t l [IHcan IHlen]]; simpl; [by split|].
  rewrite length_app. unfold expand at 1 3. destruct (in_range t) eqn:Ht.
  - destruct (shift_count_exact t Hlo Hhi Hspan Ht) as (-> & Hpos & _). split.
    + apply Forall_app. split; [|done]. by apply Forall_replicate.
    + rewrite length_replicate. lia.
  - split; [|simpl; lia]. apply Forall_app. split; [|done].
    constructor; [congruence|constructor].
Qed.

(** There, encoding undoes decoding on a sequence without two neighbours in
    the shift range. *)
Lemma rle_dec (l : list Z) :
  is_int32 lo → is_int32 hi → hi - lo + 1 ≤ int32_max →
  no_adjacent_shifts lo hi l → rle lo hi (dec l) = l.
Proof.
  intros Hlo Hhi Hspan.
  induction l as [|t rest IH]; [done|]. intros [Hhead Hrest]. simpl.
  unfold expand at 1. destruct (in_range t) eqn:Ht.
  - pose proof (in_range_start lo hi t Ht) as Hstart.
    destruct (shift_count_exact t Hlo Hhi Hspan Ht) as (-> & Hpos & Ht32).
    assert (Hk : ∃ k, Z.to_nat (t - lo + 1) = S k ∧ t = lo + Z.of_nat k).
    { exists (Z.to_nat (t - lo)). lia. }
    destruct Hk as (k & -> & Htk). simpl.
    rewrite (rle_cons_shift lo hi lo _ Hstart).
    rewrite run_len_app_all by (by apply Forall_replicate).
    rewrite (run_len_stop lo hi (dec rest) (dec_head_stop rest (Hhead eq_refl))).
    rewrite length_replicate, Nat.add_0_r.
    rewrite <- (length_replicate k lo) at 2. rewrite drop_app_length.
    rewrite IH by done. f_equal. rewrite run_token_wrap.
    replace (lo + Z.of_nat (S k) - 1) with t by lia. by apply wrap32_id.
  - simpl. rewrite (rle_cons_other lo hi t _ Ht). by rewrite IH.
Qed.

End rle_composition.

(** X17. With [shift] registered, on fewer than 2^31 int32 tokens
    [run_length_encode_shifts] never returns more tokens than it was given,
    its output has no two neighbouring tokens in the shift range, and encoding
    the output again changes nothing. *)
Theorem run_length_encode_idempotent (c : Codec) (lo hi : Z) (tokens : list Z) :
  "shift" ∈ event_types c → event_ranges c !! "shift" = Some (lo, hi) →
  Forall is_int32 tokens → Z.of_nat (length tokens) ≤ int32_max →
  ∃ enc, run_length_encode_shifts tokens c = (Ok enc, c) ∧
         (length enc ≤ length tokens)%nat ∧
         no_adjacent_shifts lo hi enc ∧
         run_length_encode_shifts enc c = (Ok enc, c).
Proof.
  intros Hin Hr Hint Hlen. exists (rle lo hi tokens).
  destruct (rle_shape lo hi (length tokens) tokens (le_n _) Hint) as (Hle & Hadj & Hint').
  rewrite (run_length_encode_with_shift c lo hi tokens Hin Hr Hlen).
  rewrite (run_length_encode_with_shift c lo hi (rle lo hi tokens) Hin Hr) by lia.
  split; [done|]. split; [done|]. split; [done|].
  by rewrite (rle_fixed lo hi _ Hint' Hadj).
Qed.

Lemma run_length_encode_idempotent_witness :
  ∃ enc,
    run_length_encode_shifts [1; 1; 1; 161; 1; 5; 1; 162; 1] (shift_only_codec 1 100)
      = (Ok enc, shift_only_codec 1 100) ∧
    (length enc ≤ length [1; 1; 1; 161; 1; 5; 1; 162; 1])%nat ∧
    no_adjacent_shifts 1 100 enc ∧
    run_length_encode_shifts enc (shift_only_codec 1 100)
      = (Ok enc, shift_only_codec 1 100).
Proof.
  apply (run_length_encode_idempotent (shift_only_codec 1 100) 1 100).
  - apply (bool_decide_unpack _). vm_compute. exact I.
  - vm_compute. reflexivity.
  - repeat constructor; vm_compute; discriminate.
  - vm_compute. discriminate.
Defined.

(** X18. With [shift] registered over a range inside int32 that has at
    most 2^31 - 1 values, [run_length_decode_shifts] of an int32 sequence that
    has no two neighbouring tokens in the shift range raises nothing, and if
    its result has fewer than 2^31 tokens, [run_length_encode_shifts] of that
    result gives the sequence back. *)
Theorem run_length_encode_after_decode (c : Codec) (lo hi : Z) (s : list Z) :
  "shift" ∈ event_types c → event_ranges c !! "shift" = Some (lo, hi) →
  is_int32 lo → is_int32 hi → hi - lo + 1 ≤ int32_max →
  Forall is_int32 s →
  no_adjacent_shifts lo hi s →
  ∃ d, run_length_decode_shifts s c = (Ok d, c) ∧
       (Z.of_nat (length d) ≤ int32_max →
        run_length_encode_shifts d c = (Ok s, c)).
Proof.
  intros Hin Hr Hlo Hhi Hspan _ Hadj. exists (concat (map (expand lo hi) s)).
  rewrite (run_length_decode_with_shift c lo hi s Hin Hr Hlo).
  split; [done|]. intros Hlen.
  rewrite (run_length_encode_with_shift c lo hi _ Hin Hr Hlen).
  by rewrite (rle_dec lo hi s Hlo Hhi Hspan Hadj).
Qed.

Lemma run_length_encode_after_decode_witness :
  ∃ d, run_length_decode_shifts [3; 161; 6; 162] (shift_only_codec 1 100)
         = (Ok d, shift_only_codec 1 100) ∧
       run_length_encode_shifts d (shift_only_codec 1 100)
         = (Ok [3; 161; 6; 162], shift_only_codec 1 100).
Proof.
  destruct (run_length_encode_after_decode (shift_only_codec 1 100) 1 100 [3; 161; 6; 162])
    as (d & Hdec & Henc).
  - apply (bool_decide_unpack _). vm_compute. exact I.
  - vm_compute. reflexivity.
  - vm_compute. split; discriminate.
  - vm_compute. split; discriminate.
  - vm_compute. discriminate.
  - repeat constructor; vm_compute; discriminate.
  - simpl. repeat split; try done; intros _ u [= <-]; vm_compute; reflexivity.
  - exists d. split; [exact Hdec|]. apply Henc.
    injection Hdec as <-. vm_compute. discriminate.
Defined.

(** X20. With [shift] registered and [shift_start] within int32,
    [run_length_decode_shifts] of int32 tokens works token by token: decoding
    a concatenation gives the concatenation of the decodings. *)
Theorem run_length_decode_app (c : Codec) (lo hi : Z) (s1 s2 : list Z) :
  "shift" ∈ event_types c → event_ranges c !! "shift" = Some (lo, hi) →
  is_int32 lo → Forall is_int32 s1 → Forall is_int32 s2 →
  ∃ d1 d2, run_length_decode_shifts s1 c = (Ok d1, c) ∧
           run_length_decode_shifts s2 c = (Ok d2, c) ∧
           run_length_decode_shifts (s1 ++ s2) c = (Ok (d1 ++ d2), c).
Proof.
  intros Hin Hr Hlo _ _.
  exists (concat (map (expand lo hi) s1)), (concat (map (expand lo hi) s2)).
  rewrite !(run_length_decode_with_shift c lo hi _ Hin Hr Hlo).
  by rewrite map_app, concat_app.
Qed.

Lemma run_length_decode_app_witness :
  ∃ d1 d2,
    run_length_decode_shifts [3; 161] (shift_only_codec 1 100)
      = (Ok d1, shift_only_codec 1 100) ∧
    run_length_decode_shifts [6; 162] (shift_only_codec 1 100)
      = (Ok d2, shift_only_codec 1 100) ∧
    run_length_decode_shifts ([3; 161] ++ [6; 162]) (shift_only_codec 1 100)
      = (Ok (d1 ++ d2), shift_only_codec 1 100).
Proof.
  apply (run_length_decode_app (shift_only_codec 1 100) 1 100).
  - apply (bool_decide_unpack _). vm_compute. exact I.
  - vm_compute. reflexivity.
  - vm_compute. split; discriminate.
  - repeat constructor; vm_compute; discriminate.
  - repeat constructor; vm_compute; discriminate.
Defined.

(** X21. With [shift] registered over a range inside int32 that has at
    most 2^31 - 1 values, what [run_length_decode_shifts] returns for int32
    tokens is never shorter than its input, and every shift-range token in it
    is the start of the shift range, whatever shift tokens the input had. *)
Theorem run_length_decode_canonical (c : Codec) (lo hi : Z) (s : list Z) :
  "shift" ∈ event_types c → event_ranges c !! "shift" = Some (lo, hi) →
  is_int32 lo → is_int32 hi → hi - lo + 1 ≤ int32_max →
  Forall is_int32 s →
  ∃ d, run_length_decode_shifts s c = (Ok d, c) ∧
       canonical lo hi d ∧ (length s ≤ length d)%nat.
Proof.
  intros Hin Hr Hlo Hhi Hspan _. exists (concat (map (expand lo hi) s)).
  rewrite (run_length_decode_with_shift c lo hi s Hin Hr Hlo).
  split; [done|]. by apply dec_shape.
Qed.

Lemma run_length_decode_canonical_witness :
  ∃ d, run_length_decode_shifts [3; 161; 1; 100] (shift_only_codec 1 100)
         = (Ok d, shift_only_codec 1 100) ∧
       canonical 1 100 d ∧ (length [3; 161; 1; 100] ≤ length d)%nat.
Proof.
  apply (run_length_decode_canonical (shift_only_codec 1 100) 1 100).
  - apply (bool_decide_unpack _). vm_compute. exact I.
  - vm_compute. reflexivity.
  - vm_compute. split; discriminate.
  - vm_compute. split; discriminate.
  - vm_compute. discriminate.
  - repeat constructor; vm_compute; discriminate.
Defined.

(** X22. With [shift] registered, on fewer than 2^31 int32 tokens in all,
    [run_length_encode_shifts] of a concatenation whose second part is empty
    or starts with a token outside the shift range is the concatenation of the
    two encodings. *)
Theorem run_length_encode_app (c : Codec) (lo hi : Z) (l1 l2 : list Z) :
  "shift" ∈ event_types c → event_ranges c !! "shift" = Some (lo, hi) →
  Forall is_int32 (l1 ++ l2) → Z.of_nat (length (l1 ++ l2)) ≤ int32_max →
  (∀ u, head l2 = Some u → in_shift_range lo hi u = false) →
  ∃ e1 e2, run_length_encode_shifts l1 c = (Ok e1, c) ∧
           run_length_encode_shifts l2 c = (Ok e2, c) ∧
           run_length_encode_shifts (l1 ++ l2) c = (Ok (e1 ++ e2), c).
Proof.
  intros Hin Hr _ Hlen Hstop. exists (rle lo hi l1), (rle lo hi l2).
  rewrite length_app in Hlen.
  rewrite (run_length_encode_with_shift c lo hi l1 Hin Hr) by lia.
  rewrite (run_length_encode_with_shift c lo hi l2 Hin Hr) by lia.
  rewrite (run_length_encode_with_shift c lo hi (l1 ++ l2) Hin Hr)
    by (rewrite length_app; lia).
  by rewrite (rle_app_stop lo hi (length l1) l1 l2 (le_n _) Hstop).
Qed.

Lemma run_length_encode_app_witness :
  ∃ e1 e2,
    run_length_encode_shifts [1; 1; 161; 1; 1] (shift_only_codec 1 100)
      = (Ok e1, shift_only_codec 1 100) ∧
    run_length_encode_shifts [162; 1] (shift_only_codec 1 100)
      = (Ok e2, shift_only_codec 1 100) ∧
    run_length_encode_shifts ([1; 1; 161; 1; 1] ++ [162; 1]) (shift_only_codec 1 100)
      = (Ok (e1 ++ e2), shift_only_codec 1 100).
Proof.
  apply (run_length_encode_app (shift_only_codec 1 100) 1 100).
  - apply (bool_decide_unpack _). vm_compute. exact I.
  - vm_compute. reflexivity.
  - repeat constructor; vm_compute; discriminate.
  - vm_compute. discriminate.
  - intros u [= <-]. vm_compute. reflexivity.
Defined.

(** X19. With [shift] registered, a sequence without any token in the
    shift range (the empty sequence included) is returned as it is by both
    [run_length_encode_shifts] and [run_length_decode_shifts]. *)
Theorem run_length_without_shift_tokens (c : Codec) (lo hi : Z) (tokens : list Z) :
  "shift" ∈ event_types c → event_ranges c !! "shift" = Some (lo, hi) →
  Forall (λ t, in_shift_range lo hi t = false) tokens →
  run_length_encode_shifts tokens c = (Ok tokens, c) ∧
  run_length_decode_shifts tokens c = (Ok tokens, c).
Proof.
  intros Hin Hr Hnone.
  unfold run_length_encode_shifts, run_length_decode_shifts, mbind, codec_op_bind.
  rewrite (event_type_range_registered c "shift" (lo, hi) Hin Hr). unfold lift.
  rewrite (shift_encode_loop_others lo hi _ tokens 0 [] Hnone) by lia.
  by rewrite (shift_decode_loop_others lo hi tokens [] Hnone).
Qed.

Lemma run_length_without_shift_tokens_witness :
  run_length_encode_shifts [161; 0; 162; 300] (shift_only_codec 1 100)
    = (Ok [161; 0; 162; 300], shift_only_codec 1 100) ∧
  run_length_decode_shifts [161; 0; 162; 300] (shift_only_codec 1 100)
    = (Ok [161; 0; 162; 300], shift_only_codec 1 100).
Proof.
  apply (run_length_without_shift_tokens (shift_only_codec 1 100) 1 100).
  - apply (bool_decide_unpack _). vm_compute. exact I.
  - vm_compute. reflexivity.
  - repeat constructor.
Defined.

(** X23. On a constructed codec in which [shift] is not listed, both
    [run_length_encode_shifts] and [run_length_decode_shifts] raise the
    unknown-event-type error, whatever the tokens; on one in which it is
    listed with a [shift_start] within int32, both return a result for every
    sequence of fewer than 2^31 int32 tokens. *)
Theorem run_length_needs_shift (types : list string) (ranges : gmap string (Z * Z))
    (c : Codec) (tokens : list Z) :
  Codec_init types ranges = Ok c →
  ("shift" ∉ types →
     run_length_encode_shifts tokens c = (Raise (UnknownEventType "shift"), c) ∧
     run_length_decode_shifts tokens c = (Raise (UnknownEventType "shift"), c)) ∧
  (∀ lo hi, "shift" ∈ types → ranges !! "shift" = Some (lo, hi) → is_int32 lo →
     Forall is_int32 tokens → Z.of_nat (length tokens) ≤ int32_max →
     ∃ enc dec, run_length_encode_shifts tokens c = (Ok enc, c) ∧
                run_length_decode_shifts tokens c = (Ok dec, c)).
Proof.
  intros Hinit.
  destruct (Codec_init_result _ ranges c Hinit) as (Htypes & Hranges & _).
  split.
  - intros Hnot. apply run_length_without_shift. by rewrite Htypes.
  - intros lo hi Hin Hr Hlo _ Hlen. rewrite <- Htypes in Hin. rewrite <- Hranges in Hr.
    rewrite (run_length_encode_with_shift c lo hi tokens Hin Hr Hlen).
    rewrite (run_length_decode_with_shift c lo hi tokens Hin Hr Hlo). eauto.
Qed.

Lemma run_length_needs_shift_witness :
  (run_length_encode_shifts [1; 1; 161] rle_test_codec
     = (Raise (UnknownEventType "shift"), rle_test_codec) ∧
   run_length_decode_shifts [1; 1; 161] rle_test_codec
     = (Raise (UnknownEventType "shift"), rle_test_codec)) ∧
  (∃ enc dec,
     run_length_encode_shifts [1; 1; 161] (shift_only_codec 1 100)
       = (Ok enc, shift_only_codec 1 100) ∧
     run_length_decode_shifts [1; 1; 161] (shift_only_codec 1 100)
       = (Ok dec, shift_only_codec 1 100)).
Proof.
  split.
  - apply (run_length_needs_shift rle_test_types rle_test_ranges rle_test_codec);
      [vm_compute; reflexivity|].
    apply (bool_decide_unpack _). vm_compute. exact I.
  - assert (Hinit : Codec_init ["shift"] {[ "shift" := (1, 100) ]}
                    = Ok (shift_only_codec 1 100)) by (vm_compute; reflexivity).
    apply (proj2 (run_length_needs_shift ["shift"] {[ "shift" := (1, 100) ]}
                    (shift_only_codec 1 100) [1; 1; 161] Hinit) 1 100).
    + apply (bool_decide_unpack _). vm_compute. exact I.
    + vm_compute. reflexivity.
    + vm_compute. split; discriminate.
    + repeat constructor; vm_compute; discriminate.
    + vm_compute. discriminate.
Defined.
